(** * urlreadseeker: an io.ReadSeeker over HTTP range requests

    A shallow embedding of [urlreadseeker.go] and the properties of its
    [Reader]: [NewReader], [Seek], [Read], [ReadAt], the shared [read]
    routine and the [size] probe.

    Conventions of the embedding.
    - Go's [int64] (and [int], taken as 64 bits wide) is [Z] with the
      wrap-around of every addition and subtraction written out.
    - A [[]byte] is a [list byte]; a buffer the callee writes into is
      passed in and handed back with its new contents.
    - A method on [*Reader] is a computation over the reader and the
      network: it may return a value together with the new reader and the
      network's log, or stop in a run-time panic.
    - The HTTP transport outside the repository is a parameter: a function
      from the requests performed so far and the next request to its
      reply.  Every [client.Do] appends its request to the log, so "no
      network call" is "the log is unchanged". *)

From Stdlib Require Import ZArith String Ascii Bool Lia List.
From Stdlib Require Import Strings.Byte.
Import ListNotations.

Local Open Scope Z_scope.

(** ** Machine integers *)

Module Int64.

Definition min_int : Z := - 2 ^ 63.
Definition max_int : Z := 2 ^ 63 - 1.

(** The value of a mathematical integer once stored in an [int64]. *)
Definition wrap (z : Z) : Z := (z + 2 ^ 63) mod 2 ^ 64 - 2 ^ 63.

Definition add (a b : Z) : Z := wrap (a + b).
Definition sub (a b : Z) : Z := wrap (a - b).

Definition in_range (z : Z) : Prop := min_int <= z <= max_int.

Definition in_rangeb (z : Z) : bool := (min_int <=? z) && (z <=? max_int).

End Int64.

(** ** Slices *)

(** [len(s)] as an [int]. *)
Definition len {A : Type} (s : list A) : Z := Z.of_nat (length s).

(** The slice expression [s[lo:hi]].  Go panics unless
    [0 <= lo <= hi <= cap(s)]; every slice of this program has its
    capacity equal to its length. *)
Definition slice {A : Type} (s : list A) (lo hi : Z) : option (list A) :=
  if (0 <=? lo) && (lo <=? hi) && (hi <=? len s)
  then Some (firstn (Z.to_nat (hi - lo)) (skipn (Z.to_nat lo) s))
  else None.

(** The contents of [dst] after the builtin [copy(dst, src)]: the first
    [min(len(dst), len(src))] elements are overwritten. *)
Definition copy {A : Type} (dst src : list A) : list A :=
  firstn (length dst) src ++ skipn (length src) dst.

(** [make([]byte, n)]. *)
Definition make (n : Z) : list byte := repeat x00 (Z.to_nat n).

(** The bytes [content[off .. off+n)], as far as they exist. *)
Definition interval (content : list byte) (off : Z) (n : nat) : list byte :=
  firstn n (skipn (Z.to_nat off) content).

(** ** Errors *)

Inductive error : Type :=
| io_EOF
| ErrModeNotImplemented (whence : Z)
| ErrBadStatusCode (code : Z)
| ErrNewRequest (url : string)
| ErrTransport (msg : string)
| ErrReadBody (msg : string)
| ErrParseInt (s : string).

(** ** strconv.ParseInt(s, 10, 64) *)

Definition digit_of (c : ascii) : option Z :=
  let n := Z.of_nat (nat_of_ascii c) in
  if (48 <=? n) && (n <=? 57) then Some (n - 48) else None.

Fixpoint parse_digits (s : string) (acc : Z) : option Z :=
  match s with
  | EmptyString => Some acc
  | String c s' =>
      match digit_of c with
      | Some d => parse_digits s' (10 * acc + d)
      | None => None
      end
  end.

Definition ParseInt (s : string) : Z + error :=
  let '(neg, ds) :=
    match s with
    | String "+"%char s' => (false, s')
    | String "-"%char s' => (true, s')
    | _ => (false, s)
    end in
  match ds with
  | EmptyString => inr (ErrParseInt s)
  | _ =>
      match parse_digits ds 0 with
      | None => inr (ErrParseInt s)
      | Some v =>
          let v := if neg then - v else v in
          if Int64.in_rangeb v then inl v else inr (ErrParseInt s)
      end
  end.

(** ** net/http *)

Inductive Method : Type := MethodGet | MethodHead.

Definition Header : Type := list (string * string).

Fixpoint Header_Get (h : Header) (key : string) : string :=
  match h with
  | [] => EmptyString
  | (k, v) :: h' => if String.eqb k key then v else Header_Get h' key
  end.

(** A request: its method, its URL and, when set, the bounds
    [(first, last)] of its header [Range: bytes=first-last]. *)
Record Request : Type := mkRequest {
  req_method : Method;
  req_url : string;
  req_range : option (Z * Z)
}.

(** A response body is a stream: reading it to its end gives its bytes
    or fails. *)
Inductive Body : Type :=
| BodyBytes (b : list byte)
| BodyBroken (msg : string).

Record Response : Type := mkResponse {
  StatusCode : Z;
  resp_Header : Header;
  resp_Body : Body
}.

Inductive Reply : Type :=
| Responded (resp : Response)
| TransportFailed (msg : string).

(** The requests performed so far, oldest first. *)
Definition World : Type := list Request.

Definition ReadAll (b : Body) : list byte + error :=
  match b with
  | BodyBytes bs => inl bs
  | BodyBroken msg => inr (ErrReadBody msg)
  end.

Definition Set_Range (req : Request) (first last : Z) : Request :=
  mkRequest (req_method req) (req_url req) (Some (first, last)).

(** ** The reader *)

(** The struct [Reader].  Its field [client] is always
    [http.DefaultClient]: it is the transport the operations below are
    parameterised by. *)
Record Reader : Type := mkReader {
  url : string;
  offset : Z;
  contentSize : Z;
  head : list byte
}.

Definition with_offset (r : Reader) (o : Z) : Reader :=
  mkReader (url r) o (contentSize r) (head r).

Definition with_contentSize (r : Reader) (n : Z) : Reader :=
  mkReader (url r) (offset r) n (head r).

Definition with_head (r : Reader) (h : list byte) : Reader :=
  mkReader (url r) (offset r) (contentSize r) h.

Definition io_SeekStart : Z := 0.
Definition io_SeekCurrent : Z := 1.
Definition io_SeekEnd : Z := 2.

(** ** Computations over a reader and the network *)

Inductive outcome (A : Type) : Type :=
| Returned (a : A) (r : Reader) (w : World)
| Panicked (msg : string).

Arguments Returned {A} a r w.
Arguments Panicked {A} msg.

Definition M (A : Type) : Type := Reader -> World -> outcome A.

Definition ret {A : Type} (a : A) : M A := fun r w => Returned a r w.

Definition bind {A B : Type} (c : M A) (k : A -> M B) : M B :=
  fun r w =>
    match c r w with
    | Returned a r' w' => k a r' w'
    | Panicked msg => Panicked msg
    end.

Notation "x <- c1 ;; c2" := (bind c1 (fun x => c2))
  (at level 61, c1 at next level, right associativity).
Notation "' pat <- c1 ;; c2" :=
  (bind c1 (fun x => match x with pat => c2 end))
  (at level 61, pat pattern, c1 at next level, right associativity).
Notation "c1 ;; c2" := (bind c1 (fun _ => c2))
  (at level 61, right associativity).

Definition this : M Reader := fun r w => Returned r r w.

Definition set_offset (o : Z) : M unit :=
  fun r w => Returned tt (with_offset r o) w.

Definition set_contentSize (n : Z) : M unit :=
  fun r w => Returned tt (with_contentSize r n) w.

Definition set_head (h : list byte) : M unit :=
  fun r w => Returned tt (with_head r h) w.

Definition panic {A : Type} (msg : string) : M A := fun _ _ => Panicked msg.

(** [s[lo:hi]] inside a computation. *)
Definition index {A : Type} (s : list A) (lo hi : Z) : M (list A) :=
  match slice s lo hi with
  | Some t => ret t
  | None => panic "slice bounds out of range"%string
  end.

(** The value and the network log of a run, or the panic. *)
Definition observe {A : Type} (o : outcome A) : (A * World) + string :=
  match o with
  | Returned a _ w => inl (a, w)
  | Panicked msg => inr msg
  end.

Section Client.

(** Whether [http.NewRequest] can parse the URL. *)
Variable url_ok : string -> bool.

(** The network: the reply to a request, given the requests before it. *)
Variable transport : World -> Request -> Reply.

Definition NewRequest (m : Method) (u : string) : Request + error :=
  if url_ok u then inl (mkRequest m u None) else inr (ErrNewRequest u).

Definition client_Do (req : Request) : M Reply :=
  fun r w => Returned (transport w req) r (w ++ [req]).

(** [func (r *Reader) read(buf []byte, offset int64) (n int, err error)],
    with the contents of [buf] on return as a third result. *)
Definition read (buf : list byte) (off : Z)
  : M (Z * option error * list byte) :=
  r <- this ;;
  let end_ := Int64.add off (len buf) in
  if len (head r) >? end_ then
    src <- index (head r) off end_ ;;
    ret (len buf, None, copy buf src)
  else if off >=? contentSize r then
    ret (0, Some io_EOF, buf)
  else
    match NewRequest MethodGet (url r) with
    | inr err => ret (0, Some err, buf)
    | inl req =>
        let req := Set_Range req off (Int64.sub end_ 1) in
        rep <- client_Do req ;;
        match rep with
        | TransportFailed msg => ret (0, Some (ErrTransport msg), buf)
        | Responded resp =>
            if negb (Z.quot (StatusCode resp) 100 =? 2) then
              ret (0, Some (ErrBadStatusCode (StatusCode resp)), buf)
            else
              match ReadAll (resp_Body resp) with
              | inr err => ret (0, Some err, buf)
              | inl body =>
                  let buf := copy buf body in
                  if len buf =? 0 then ret (0, Some io_EOF, buf)
                  else ret (len buf, None, buf)
              end
        end
    end.

(** [func (r *Reader) ReadAt(buf []byte, offset int64) (n int, err error)] *)
Definition ReadAt (buf : list byte) (off : Z)
  : M (Z * option error * list byte) :=
  read buf off.

(** [func (r *Reader) Read(buf []byte) (n int, err error)] *)
Definition Read (buf : list byte) : M (Z * option error * list byte) :=
  r <- this ;;
  '(n, err, buf) <- read buf (offset r) ;;
  r <- this ;;
  set_offset (Int64.add (offset r) n) ;;
  ret (n, err, buf).

(** [func (r *Reader) Seek(offset int64, whence int) (int64, error)] *)
Definition Seek (off : Z) (whence : Z) : M (Z * option error) :=
  r <- this ;;
  if whence =? io_SeekStart then
    set_offset off ;;
    r <- this ;; ret (offset r, None)
  else if whence =? io_SeekCurrent then
    set_offset (Int64.add (offset r) off) ;;
    r <- this ;; ret (offset r, None)
  else if whence =? io_SeekEnd then
    set_offset (Int64.sub (contentSize r) off) ;;
    r <- this ;; ret (offset r, None)
  else
    ret (0, Some (ErrModeNotImplemented whence)).

(** [func (r *Reader) size() (contentSize int64, err error)] *)
Definition size : M (Z * option error) :=
  r <- this ;;
  match NewRequest MethodHead (url r) with
  | inr err => ret (0, Some err)
  | inl req =>
      rep <- client_Do req ;;
      match rep with
      | TransportFailed msg => ret (0, Some (ErrTransport msg))
      | Responded resp =>
          let s := Header_Get (resp_Header resp) "Content-Length"%string in
          match ParseInt s with
          | inr err => ret (0, Some err)
          | inl sz => ret (sz, None)
          end
      end
  end.

(** The body of [NewReader] once [r] is allocated: [Some err] is
    [return nil, err], [None] is [return r, nil].  The [fmt.Printf] that
    reports an absorbed prefetch error writes to standard output and is
    left out. *)
Definition NewReader_init (prefetch : Z) : M (option error) :=
  '(sz, err) <- size ;;
  match err with
  | Some e => ret (Some e)
  | None =>
      set_contentSize sz ;;
      (if prefetch >? 0 then
         let head := make prefetch in
         '(total, err, head) <- ReadAt head 0 ;;
         let head := match err with Some _ => [] | None => head end in
         head <- (if len head >? total then index head 0 total
                  else ret head) ;;
         set_head head
       else ret tt) ;;
      ret None
  end.

(** [func NewReader(url string, prefetch int)]: the reader returned (if
    any), the error, and the network's log; nothing when it panics. *)
Definition NewReader (u : string) (prefetch : Z) (w : World)
  : option (option Reader * option error * World) :=
  match NewReader_init prefetch (mkReader u 0 0 []) w with
  | Returned (Some e) _ w' => Some (None, Some e, w')
  | Returned None r w' => Some (Some r, None, w')
  | Panicked _ => None
  end.

(** ** Vocabulary of the properties *)

(** The request [read] sends for the interval of [buf] at [off]. *)
Definition range_request (r : Reader) (buf : list byte) (off : Z) : Request :=
  mkRequest MethodGet (url r)
    (Some (off, Int64.sub (Int64.add off (len buf)) 1)).

(** The prefetch test of [read]. *)
Definition prefetch_hit (r : Reader) (buf : list byte) (off : Z) : bool :=
  len (head r) >? Int64.add off (len buf).

(** The result of the remote fetch, from the reply to its request. *)
Definition fetched (buf : list byte) (rep : Reply)
  : Z * option error * list byte :=
  match rep with
  | TransportFailed msg => (0, Some (ErrTransport msg), buf)
  | Responded resp =>
      if negb (Z.quot (StatusCode resp) 100 =? 2) then
        (0, Some (ErrBadStatusCode (StatusCode resp)), buf)
      else
        match resp_Body resp with
        | BodyBroken msg => (0, Some (ErrReadBody msg), buf)
        | BodyBytes body =>
            if len buf =? 0 then (0, Some io_EOF, copy buf body)
            else (len buf, None, copy buf body)
        end
  end.

(** The two ways of asking for bytes: at the cursor, or at an offset. *)
Inductive ReadCall : Type :=
| ByRead
| ByReadAt (off : Z).

Definition call (q : ReadCall) (buf : list byte)
  : M (Z * option error * list byte) :=
  match q with
  | ByRead => Read buf
  | ByReadAt off => ReadAt buf off
  end.

(** Where the target interval of a request starts. *)
Definition start (q : ReadCall) (r : Reader) : Z :=
  match q with
  | ByRead => offset r
  | ByReadAt off => off
  end.

(** The remote fetch of [read] for [buf] at [off] goes through: the
    offset is below the size, the request can be built, the buffer is not
    empty, and the transport answers 2xx with a body that can be read. *)
Definition fetch_succeeds (r : Reader) (w : World) (buf : list byte)
    (off : Z) : Prop :=
  off < contentSize r /\ url_ok (url r) = true /\ buf <> [] /\
  exists resp body,
    transport w (range_request r buf off) = Responded resp /\
    Z.quot (StatusCode resp) 100 = 2 /\
    resp_Body resp = BodyBytes body.

(** The server behind the transport holds [content] at [u] and honours
    byte ranges: a GET for the bytes [first] to [last], with [first]
    inside the resource, is answered 2xx with the bytes of the range that
    exist. *)
Definition serves (u : string) (content : list byte) : Prop :=
  forall w first last,
    0 <= first -> first <= last -> first < len content ->
    exists resp,
      transport w (mkRequest MethodGet u (Some (first, last))) =
        Responded resp /\
      Z.quot (StatusCode resp) 100 = 2 /\
      resp_Body resp =
        BodyBytes (firstn (Z.to_nat (last - first + 1))
                          (skipn (Z.to_nat first) content)).

(** The transport answers a request alike whatever was sent before. *)
Definition stateless : Prop :=
  forall w1 w2 req, transport w1 req = transport w2 req.

End Client.

Arguments NewRequest url_ok m u : simpl never.

(** ** A file server, for concrete runs *)

Module Example.

Definition always_ok (u : string) : bool := true.

(** The five bytes of the resource. *)
Definition content : list byte := [x68; x65; x6c; x6c; x6f].

(** A well-behaved server of [content]: HEAD announces the length, a
    ranged GET answers 206 with the bytes of the range that exist, and
    416 when the range starts outside the resource. *)
Definition file_server (w : World) (req : Request) : Reply :=
  match req_method req with
  | MethodHead =>
      Responded (mkResponse 200 [("Content-Length"%string, "5"%string)]
                            (BodyBytes []))
  | MethodGet =>
      match req_range req with
      | Some (first, last) =>
          if (0 <=? first) && (first <=? last) && (first <? len content)
          then Responded (mkResponse 206 []
                 (BodyBytes (firstn (Z.to_nat (last - first + 1))
                                    (skipn (Z.to_nat first) content))))
          else Responded (mkResponse 416 [] (BodyBytes []))
      | None => Responded (mkResponse 200 [] (BodyBytes content))
      end
  end.

(** A server without range support: every GET is answered 200 with the
    whole resource. *)
Definition plain_server (w : World) (req : Request) : Reply :=
  match req_method req with
  | MethodHead =>
      Responded (mkResponse 200 [("Content-Length"%string, "5"%string)]
                            (BodyBytes []))
  | MethodGet => Responded (mkResponse 200 [] (BodyBytes content))
  end.

Definition the_url : string := "http://example.org/f"%string.

(** A server whose HEAD answers and whose GETs all fail with 500. *)
Definition failing_get_server (w : World) (req : Request) : Reply :=
  match req_method req with
  | MethodHead =>
      Responded (mkResponse 200 [("Content-Length"%string, "5"%string)]
                            (BodyBytes []))
  | MethodGet => Responded (mkResponse 500 [] (BodyBytes []))
  end.

Definition three : list byte := [x01; x01; x01].

(** A reader of the resource without prefetch, and one whose prefetch
    buffer holds the whole resource. *)
Definition plain_reader : Reader := mkReader the_url 0 5 [].
Definition cached_reader : Reader := mkReader the_url 0 5 content.

Definition head_request : Request := mkRequest MethodHead the_url None.

Definition get_request (first last : Z) : Request :=
  mkRequest MethodGet the_url (Some (first, last)).

(** [plain_reader] after [Seek(-2, io.SeekStart)]. *)
Definition negative_reader : Reader := with_offset plain_reader (-2).

(** The reader [NewReader(the_url, 100)] builds against [file_server]: the
    five bytes of the resource followed by the 95 zero bytes of the
    scratch buffer that no response filled. *)
Definition overlong_reader : Reader :=
  mkReader the_url 0 5 (content ++ make 95).

(** The requests that construction has sent: the probe and the prefetch. *)
Definition after_open : World := [head_request; get_request 0 99].

(** A server whose HEAD answers and whose GETs never get a reply. *)
Definition dead_server (w : World) (req : Request) : Reply :=
  match req_method req with
  | MethodHead =>
      Responded (mkResponse 200 [("Content-Length"%string, "5"%string)]
                            (BodyBytes []))
  | MethodGet => TransportFailed "connection refused"%string
  end.

(** A server whose replies carry no headers. *)
Definition bare_server (w : World) (req : Request) : Reply :=
  Responded (mkResponse 200 [] (BodyBytes content)).

(** A server that answers the probe with 404 and the length of its error
    page. *)
Definition missing_server (w : World) (req : Request) : Reply :=
  Responded (mkResponse 404 [("Content-Length"%string, "19"%string)]
                        (BodyBytes [])).

Definition two : list byte := [x02; x02].

End Example.

(** * Properties *)

(** ** Integers, slices and copies *)

Lemma wrap_in_range (z : Z) : Int64.in_range z -> Int64.wrap z = z.
Proof.
  unfold Int64.in_range, Int64.wrap, Int64.min_int, Int64.max_int.
  intros H. rewrite Z.mod_small; lia.
Qed.

(** An addition that overflows lands on a negative number. *)
Lemma add_overflow (a b : Z) :
  a <= Int64.max_int -> b <= Int64.max_int -> Int64.max_int < a + b ->
  Int64.add a b < 0.
Proof.
  unfold Int64.add, Int64.wrap, Int64.max_int. intros Ha Hb Hab.
  replace (a + b + 2 ^ 63) with (a + b - 2 ^ 63 + 1 * 2 ^ 64) by lia.
  rewrite Z.mod_add by lia. rewrite Z.mod_small; lia.
Qed.

Lemma len_nonneg {A : Type} (s : list A) : 0 <= len s.
Proof. unfold len. lia. Qed.

Lemma len_nil_iff {A : Type} (s : list A) : len s = 0 <-> s = [].
Proof.
  unfold len. destruct s; simpl; split; intros H;
    try reflexivity; try discriminate; lia.
Qed.

Lemma slice_Some {A : Type} (s : list A) (lo hi : Z) :
  0 <= lo -> lo <= hi -> hi <= len s ->
  slice s lo hi = Some (firstn (Z.to_nat (hi - lo)) (skipn (Z.to_nat lo) s)).
Proof.
  intros H0 H1 H2. unfold slice.
  replace (0 <=? lo) with true by (symmetry; apply Z.leb_le; lia).
  replace (lo <=? hi) with true by (symmetry; apply Z.leb_le; lia).
  replace (hi <=? len s) with true by (symmetry; apply Z.leb_le; lia).
  reflexivity.
Qed.

Lemma slice_None_negative {A : Type} (s : list A) (lo hi : Z) :
  lo < 0 -> slice s lo hi = None.
Proof.
  intros H. unfold slice.
  replace (0 <=? lo) with false by (symmetry; apply Z.leb_gt; lia).
  reflexivity.
Qed.

Lemma slice_Some_bounds {A : Type} (s t : list A) (lo hi : Z) :
  slice s lo hi = Some t -> 0 <= lo /\ lo <= hi /\ hi <= len s.
Proof.
  unfold slice. intros H.
  destruct (0 <=? lo) eqn:E0; [|discriminate].
  destruct (lo <=? hi) eqn:E1; [|discriminate].
  destruct (hi <=? len s) eqn:E2; [|discriminate].
  apply Z.leb_le in E0, E1, E2. lia.
Qed.

Lemma slice_length {A : Type} (s t : list A) (lo hi : Z) :
  slice s lo hi = Some t -> len t = hi - lo.
Proof.
  intros H. pose proof (slice_Some_bounds _ _ _ _ H) as (H0 & H1 & H2).
  rewrite slice_Some in H by assumption. injection H as <-.
  unfold len in *. rewrite length_firstn, length_skipn. lia.
Qed.

Lemma copy_length {A : Type} (dst src : list A) :
  length (copy dst src) = length dst.
Proof.
  unfold copy. rewrite length_app, length_firstn, length_skipn. lia.
Qed.

Lemma copy_same_length {A : Type} (dst src : list A) :
  length src = length dst -> copy dst src = src.
Proof.
  intros H. unfold copy. rewrite <- H, firstn_all, H, skipn_all.
  apply app_nil_r.
Qed.

Lemma copy_short {A : Type} (dst src : list A) :
  (length src <= length dst)%nat ->
  copy dst src = src ++ skipn (length src) dst.
Proof.
  intros H. unfold copy. rewrite firstn_all2 by assumption. reflexivity.
Qed.

Lemma copy_nil {A : Type} (src : list A) : copy [] src = [].
Proof. unfold copy. simpl. destruct src; reflexivity. Qed.


(** Unfolds the computation monad. *)
Ltac run :=
  unfold Read, ReadAt, read, Seek, size, client_Do, index, bind, this, ret,
    set_offset, set_contentSize, set_head, panic in *.

Section Properties.

Variable url_ok : string -> bool.
Variable transport : World -> Request -> Reply.

Local Set Warnings "-notation-for-abbreviation".

Notation read := (read url_ok transport).
Notation ReadAt := (ReadAt url_ok transport).
Notation Read := (Read url_ok transport).
Notation size := (size url_ok transport).
Notation NewReader := (NewReader url_ok transport).
Notation NewReader_init := (NewReader_init url_ok transport).
Notation call := (call url_ok transport).
Notation fetch_succeeds := (fetch_succeeds url_ok transport).


(** *** The three branches of [read] *)

Lemma read_hit (r : Reader) (w : World) (buf : list byte) (off : Z) :
  prefetch_hit r buf off = true ->
  read buf off r w =
    match slice (head r) off (Int64.add off (len buf)) with
    | Some src => Returned (len buf, None, copy buf src) r w
    | None => Panicked "slice bounds out of range"%string
    end.
Proof.
  unfold prefetch_hit. intros H. run. rewrite H.
  destruct (slice _ _ _); reflexivity.
Qed.

Lemma read_past_end (r : Reader) (w : World) (buf : list byte) (off : Z) :
  prefetch_hit r buf off = false -> contentSize r <= off ->
  read buf off r w = Returned (0, Some io_EOF, buf) r w.
Proof.
  unfold prefetch_hit. intros H Hoff. run. rewrite H.
  replace (off >=? contentSize r) with true
    by (symmetry; apply Z.geb_le; lia).
  reflexivity.
Qed.


Lemma read_fetch (r : Reader) (w : World) (buf : list byte) (off : Z) :
  prefetch_hit r buf off = false -> off < contentSize r ->
  read buf off r w =
    if url_ok (url r) then
      Returned (fetched buf (transport w (range_request r buf off))) r
               (w ++ [range_request r buf off])
    else Returned (0, Some (ErrNewRequest (url r)), buf) r w.
Proof.
  unfold prefetch_hit. intros H Hoff. run. rewrite H.
  replace (off >=? contentSize r) with false
    by (symmetry; rewrite Z.geb_leb; apply Z.leb_gt; lia).
  unfold NewRequest. destruct (url_ok (url r)); [|reflexivity].
  unfold range_request, Set_Range, fetched. simpl.
  destruct (transport _ _) as [resp|msg]; [|reflexivity].
  destruct (negb _); [reflexivity|].
  destruct (resp_Body resp) as [body|msg]; simpl; [|reflexivity].
  replace (len (copy buf body)) with (len buf)
    by (unfold len; now rewrite copy_length).
  destruct (len buf =? 0); reflexivity.
Qed.

(** Every return of [read]: the reader is as before, the buffer keeps its
    length, and the count is all of the buffer without an error, or zero
    with one and the buffer untouched. *)
Lemma read_shape (r r' : Reader) (w w' : World) (buf b : list byte)
    (off n : Z) (err : option error) :
  read buf off r w = Returned (n, err, b) r' w' ->
  r' = r /\ length b = length buf /\
  ((err = None /\ n = len buf) \/
   (exists e, err = Some e /\ n = 0 /\ b = buf)).
Proof.
  destruct (prefetch_hit r buf off) eqn:Hit.
  - rewrite read_hit by assumption.
    destruct (slice _ _ _) as [src|]; [|discriminate].
    intros H. injection H as <- <- <- <- <-.
    rewrite copy_length. auto.
  - destruct (Z_lt_le_dec off (contentSize r)) as [Hlt|Hge].
    + rewrite read_fetch by assumption.
      destruct (url_ok (url r)).
      * unfold fetched.
        destruct (transport _ _) as [resp|msg].
        -- destruct (negb _).
           ++ intros H. injection H as <- <- <- <- <-. eauto 8.
           ++ destruct (resp_Body resp) as [body|msg].
              ** destruct (len buf =? 0) eqn:E; intros H;
                   injection H as <- <- <- <- <-; rewrite copy_length.
                 --- apply Z.eqb_eq, len_nil_iff in E. subst buf.
                     rewrite copy_nil. eauto 8.
                 --- auto.
              ** intros H. injection H as <- <- <- <- <-. eauto 8.
        -- intros H. injection H as <- <- <- <- <-. eauto 8.
      * intros H. injection H as <- <- <- <- <-. eauto 8.
    + rewrite read_past_end by assumption.
      intros H. injection H as <- <- <- <- <-. eauto 8.
Qed.

(** [Read] is [read] at the cursor, followed by the cursor's update. *)
Lemma Read_unfold (r : Reader) (w : World) (buf : list byte) :
  Read buf r w =
    match read buf (offset r) r w with
    | Returned (n, err, b) r' w' =>
        Returned (n, err, b) (with_offset r' (Int64.add (offset r') n)) w'
    | Panicked msg => Panicked msg
    end.
Proof.
  unfold Read, bind, this, set_offset, ret.
  destruct (read buf (offset r) r w) as [[[n err] b] r' w'|msg]; reflexivity.
Qed.


Lemma call_observe (q : ReadCall) (r : Reader) (w : World) (buf : list byte) :
  observe (call q buf r w) = observe (read buf (start q r) r w).
Proof.
  destruct q as [|off]; simpl; [|reflexivity].
  rewrite Read_unfold.
  destruct (read buf (offset r) r w) as [[[n err] b] r' w'|msg]; reflexivity.
Qed.

(** *** Arithmetic of the interval's end *)

Lemma add_exact (a b : Z) :
  Int64.in_range (a + b) -> Int64.add a b = a + b.
Proof. apply wrap_in_range. Qed.

(** With a non-negative end, the addition [offset + len(buf)] did not
    overflow. *)
Lemma end_nonneg_exact (off : Z) (buf : list byte) :
  Int64.in_range off -> len buf <= Int64.max_int ->
  0 <= Int64.add off (len buf) ->
  Int64.add off (len buf) = off + len buf.
Proof.
  intros Hoff Hbuf Hend. pose proof (len_nonneg buf) as Hlen.
  destruct (Z_le_gt_dec (off + len buf) Int64.max_int) as [Hle|Hgt].
  - apply add_exact. unfold Int64.in_range in *. lia.
  - unfold Int64.in_range in Hoff.
    pose proof (add_overflow off (len buf)) as Hov. lia.
Qed.

Lemma prefetch_hit_false (r : Reader) (buf : list byte) (off : Z) :
  prefetch_hit r buf off = false <->
  len (head r) <= Int64.add off (len buf).
Proof.
  unfold prefetch_hit. rewrite Z.gtb_ltb, Z.ltb_ge. reflexivity.
Qed.

Lemma prefetch_hit_true (r : Reader) (buf : list byte) (off : Z) :
  prefetch_hit r buf off = true <->
  Int64.add off (len buf) < len (head r).
Proof.
  unfold prefetch_hit. rewrite Z.gtb_ltb, Z.ltb_lt. reflexivity.
Qed.

(** *** The prefetch buffer *)

(** C1, as amended: for every reader whose prefetch buffer has a length an
    [int] can hold and every read request ([Read] or [ReadAt]) whose
    interval starts at a non-negative offset, if
    [len(prefetchBuffer) > offset + len(buffer)] then the read copies
    [prefetchBuffer[offset .. offset+len(buffer))] into the caller's
    buffer, returns [len(buffer)] with no error and performs no network
    call; [ReadAt] leaves the reader as it was and [Read] moves the cursor
    to the end of the interval. *)
Theorem prefetch_hit_serves_from_memory
    (q : ReadCall) (r : Reader) (w : World) (buf : list byte) :
  len (head r) <= Int64.max_int ->
  0 <= start q r ->
  len (head r) > start q r + len buf ->
  let bytes := firstn (length buf) (skipn (Z.to_nat (start q r)) (head r)) in
  length bytes = length buf /\
  call q buf r w =
    Returned (len buf, None, bytes)
      match q with
      | ByRead => with_offset r (offset r + len buf)
      | ByReadAt _ => r
      end w.
Proof.
  intros Hhead Hoff Hcover bytes. pose proof (len_nonneg buf) as Hlen.
  set (off := start q r) in *.
  assert (Hend : Int64.add off (len buf) = off + len buf).
  { apply add_exact. unfold Int64.in_range, Int64.min_int, Int64.max_int in *.
    lia. }
  assert (Hbytes : length bytes = length buf).
  { unfold bytes. rewrite length_firstn, length_skipn.
    unfold len in *. lia. }
  assert (Hread : read buf off r w = Returned (len buf, None, bytes) r w).
  { rewrite read_hit by (apply prefetch_hit_true; lia).
    rewrite Hend, slice_Some by lia.
    replace (Z.to_nat (off + len buf - off)) with (length buf)
      by (unfold len; lia).
    fold bytes. rewrite copy_same_length by assumption. reflexivity. }
  split; [assumption|].
  destruct q as [|o]; simpl in *.
  - rewrite Read_unfold. fold off. rewrite Hread. simpl.
    fold off. rewrite Hend. reflexivity.
  - exact Hread.
Qed.

(** *** The cursor *)

(** C4: after [n, err := Read(buf)] the cursor is the previous cursor plus
    [n] exactly, without wrap-around, for every returned [n]; an error
    comes with [n = 0] and leaves the cursor where it was.  [Read] does
    return whenever the cursor is non-negative and the interval's end fits
    an [int64]. *)
Theorem Read_advances_cursor_by_n (r : Reader) (w : World) (buf : list byte) :
  Int64.in_range (offset r) -> len buf <= Int64.max_int ->
  (0 <= offset r -> offset r + len buf <= Int64.max_int ->
   exists res r' w', Read buf r w = Returned res r' w') /\
  (forall n err b r' w',
     Read buf r w = Returned (n, err, b) r' w' ->
     offset r' = offset r + n /\
     (err <> None -> n = 0 /\ offset r' = offset r)).
Proof.
  intros Hoff Hbuf. pose proof (len_nonneg buf) as Hlen. split.
  - intros H0 Hmax. rewrite Read_unfold.
    assert (Hend : Int64.add (offset r) (len buf) = offset r + len buf).
    { apply add_exact. unfold Int64.in_range in *. lia. }
    destruct (prefetch_hit r buf (offset r)) eqn:Hit.
    + rewrite read_hit by assumption.
      apply prefetch_hit_true in Hit.
      rewrite Hend in *. rewrite slice_Some by lia. eauto.
    + destruct (Z_lt_le_dec (offset r) (contentSize r)).
      * rewrite read_fetch by assumption.
        destruct (url_ok (url r)); [|eauto].
        destruct (fetched _ _) as [[n err] b]. eauto.
      * rewrite read_past_end by assumption. eauto.
  - intros n err b r' w'. rewrite Read_unfold.
    destruct (read buf (offset r) r w) as [[[n0 err0] b0] r0 w0|msg] eqn:E;
      [|discriminate].
    intros H. injection H as <- <- <- <- <-.
    assert (Hexact : Int64.add (offset r) (len buf) = offset r + len buf).
    { apply end_nonneg_exact; try assumption.
      destruct (prefetch_hit r buf (offset r)) eqn:Hit.
      - rewrite read_hit in E by assumption.
        destruct (slice _ _ _) as [src|] eqn:Es; [|discriminate].
        apply slice_Some_bounds in Es. lia.
      - apply prefetch_hit_false in Hit.
        pose proof (len_nonneg (head r)). lia. }
    apply read_shape in E. destruct E as (-> & _ & [[-> ->]|(e & -> & -> & _)]).
    + simpl. rewrite Hexact. split; [reflexivity|congruence].
    + simpl. rewrite add_exact by (now rewrite Z.add_0_r).
      split; [reflexivity|]. intros _. split; [reflexivity|lia].
Qed.

(** C5: [Seek(offset, whence)] sets the cursor to [offset] from the start,
    to [cursor + offset] from the current position and to
    [totalSize - offset] from the end (sums and differences of [int64]s,
    exact whenever the mathematical result is an [int64]), returns the new
    cursor in these three cases, and for any other [whence] fails with the
    unsupported-mode error and leaves the reader as it was; in every case
    the other fields and the network log are untouched. *)
Theorem Seek_sets_cursor (r : Reader) (w : World) (off whence : Z) :
  (whence = io_SeekStart ->
   Seek off whence r w = Returned (off, None) (with_offset r off) w) /\
  (whence = io_SeekCurrent ->
   Seek off whence r w =
     Returned (Int64.add (offset r) off, None)
              (with_offset r (Int64.add (offset r) off)) w /\
   (Int64.in_range (offset r + off) ->
    Int64.add (offset r) off = offset r + off)) /\
  (whence = io_SeekEnd ->
   Seek off whence r w =
     Returned (Int64.sub (contentSize r) off, None)
              (with_offset r (Int64.sub (contentSize r) off)) w /\
   (Int64.in_range (contentSize r - off) ->
    Int64.sub (contentSize r) off = contentSize r - off)) /\
  (whence <> io_SeekStart -> whence <> io_SeekCurrent ->
   whence <> io_SeekEnd ->
   Seek off whence r w =
     Returned (0, Some (ErrModeNotImplemented whence)) r w).
Proof.
  split; [|split; [|split]].
  - intros ->. reflexivity.
  - intros ->. split; [reflexivity|apply wrap_in_range].
  - intros ->. split; [reflexivity|apply wrap_in_range].
  - intros H0 H1 H2. unfold Seek, bind, this, ret.
    apply Z.eqb_neq in H0, H1, H2. rewrite H0, H1, H2. reflexivity.
Qed.

(** *** [ReadAt] and the reader's state *)

(** C6: [ReadAt(buffer, offset)] leaves the whole reader as it was (the
    cursor, the URL, the size and the prefetch buffer), and what it
    returns, sends over the network or panics with does not depend on the
    cursor. *)
Theorem ReadAt_leaves_reader
    (r : Reader) (w : World) (buf : list byte) (off : Z) :
  (forall res r' w', ReadAt buf off r w = Returned res r' w' -> r' = r) /\
  (forall c,
     observe (ReadAt buf off (with_offset r c) w) =
     observe (ReadAt buf off r w)).
Proof.
  split.
  - intros [[n err] b] r' w' H. apply read_shape in H. tauto.
  - intros c. unfold ReadAt.
    assert (Hhit : prefetch_hit (with_offset r c) buf off =
                   prefetch_hit r buf off) by reflexivity.
    destruct (prefetch_hit r buf off) eqn:Hit.
    + rewrite !read_hit by assumption. simpl.
      destruct (slice _ _ _); reflexivity.
    + destruct (Z_lt_le_dec off (contentSize r)) as [Hlt|Hge].
      * rewrite !read_fetch by assumption. simpl.
        destruct (url_ok (url r)); reflexivity.
      * rewrite !read_past_end by assumption. reflexivity.
Qed.

(** *** The byte count of [read] *)

(** C8: with a non-empty buffer, [read] never returns a partial count: it
    returns [0] with an error or [len(buffer)] with none.  When a ranged
    GET answered 2xx carries a body shorter than the buffer, the count is
    still [len(buffer)], the body fills the front of the buffer and the
    bytes behind it are the caller's old ones. *)
Theorem read_count_is_all_or_nothing
    (r : Reader) (w : World) (buf : list byte) (off : Z) :
  buf <> [] ->
  (forall n err b r' w',
     read buf off r w = Returned (n, err, b) r' w' ->
     (n = 0 /\ err <> None) \/ (n = len buf /\ n <> 0 /\ err = None)) /\
  (forall resp body,
     prefetch_hit r buf off = false -> off < contentSize r ->
     url_ok (url r) = true ->
     transport w (range_request r buf off) = Responded resp ->
     Z.quot (StatusCode resp) 100 = 2 ->
     resp_Body resp = BodyBytes body ->
     (length body < length buf)%nat ->
     read buf off r w =
       Returned (len buf, None, body ++ skipn (length body) buf) r
                (w ++ [range_request r buf off])).
Proof.
  intros Hne.
  assert (Hlen : len buf <> 0) by (now rewrite len_nil_iff).
  split.
  - intros n err b r' w' H. apply read_shape in H.
    destruct H as (_ & _ & [[-> ->]|(e & -> & -> & _)]).
    + right. auto.
    + left. split; [reflexivity|discriminate].
  - intros resp body Hit Hlt Hurl Hrep Hstatus Hbody Hshort.
    rewrite read_fetch by assumption. rewrite Hurl, Hrep.
    unfold fetched. rewrite Hstatus, Hbody. simpl.
    apply Z.eqb_neq in Hlen. rewrite Hlen.
    rewrite copy_short by lia. reflexivity.
Qed.

(** *** Reads that miss the prefetch buffer *)

Lemma with_offset_same (r : Reader) : with_offset r (offset r) = r.
Proof. destruct r. reflexivity. Qed.

(** A read that misses the prefetch buffer returns, with the reader as it
    was. *)
Lemma read_miss_returns (r : Reader) (w : World) (buf : list byte) (off : Z) :
  prefetch_hit r buf off = false ->
  exists n err b w', read buf off r w = Returned (n, err, b) r w'.
Proof.
  intros Hit.
  destruct (Z_lt_le_dec off (contentSize r)) as [Hlt|Hge].
  - rewrite read_fetch by assumption.
    destruct (url_ok (url r)); [|eauto].
    destruct (fetched _ _) as [[n err] b]. eauto.
  - rewrite read_past_end by assumption. eauto.
Qed.

(** The fetch returns no error exactly when it went through. *)
Lemma fetched_no_error (buf : list byte) (rep : Reply) :
  snd (fst (fetched buf rep)) = None <->
  buf <> [] /\
  exists resp body,
    rep = Responded resp /\ Z.quot (StatusCode resp) 100 = 2 /\
    resp_Body resp = BodyBytes body.
Proof.
  unfold fetched. destruct rep as [resp|msg].
  - destruct (Z.quot (StatusCode resp) 100 =? 2) eqn:Est; simpl.
    + apply Z.eqb_eq in Est.
      destruct (resp_Body resp) as [body|msg] eqn:Eb.
      * destruct (len buf =? 0) eqn:El; simpl.
        -- apply Z.eqb_eq, len_nil_iff in El. split; [discriminate|].
           intros [Hne _]. contradiction.
        -- apply Z.eqb_neq in El. rewrite len_nil_iff in El.
           split; [|reflexivity]. intros _. split; [assumption|].
           exists resp, body. auto.
      * simpl. split; [discriminate|].
        intros (_ & resp' & body & Hr & _ & Hb). congruence.
    + apply Z.eqb_neq in Est. split; [discriminate|].
      intros (_ & resp' & body & Hr & Hs & _).
      injection Hr as <-. contradiction.
  - simpl. split; [discriminate|].
    intros (_ & resp & body & Hr & _). discriminate.
Qed.

(** Under the invariant [len(prefetchBuffer) <= totalSize], a read request
    that starts at or past [totalSize] and whose end fits an [int64] fails
    with EOF, reads nothing, sends nothing and leaves the reader alone. *)
Lemma read_at_or_past_size_is_EOF
    (q : ReadCall) (r : Reader) (w : World) (buf : list byte) :
  len (head r) <= contentSize r ->
  contentSize r <= start q r ->
  start q r + len buf <= Int64.max_int ->
  call q buf r w = Returned (0, Some io_EOF, buf) r w.
Proof.
  intros Hinv Hpast Hfit.
  pose proof (len_nonneg buf). pose proof (len_nonneg (head r)).
  assert (Hread : read buf (start q r) r w =
                  Returned (0, Some io_EOF, buf) r w).
  { apply read_past_end; [|assumption].
    apply prefetch_hit_false. rewrite add_exact; [lia|].
    unfold Int64.in_range, Int64.min_int, Int64.max_int in *. lia. }
  destruct q as [|off]; simpl in *; [|exact Hread].
  rewrite Read_unfold, Hread. simpl.
  rewrite add_exact.
  - rewrite Z.add_0_r, with_offset_same. reflexivity.
  - unfold Int64.in_range, Int64.min_int, Int64.max_int in *. lia.
Qed.

(** *** Empty buffers *)


(** *** Cursors outside the resource *)


(** *** Operations keep the prefetch buffer and the size *)

Lemma Seek_keeps_fields (r r' : Reader) (w w' : World) (off whence : Z)
    (res : Z * option error) :
  Seek off whence r w = Returned res r' w' ->
  url r' = url r /\ contentSize r' = contentSize r /\ head r' = head r /\
  w' = w.
Proof.
  unfold Seek, bind, this, ret, set_offset.
  destruct (whence =? io_SeekStart); [|destruct (whence =? io_SeekCurrent);
    [|destruct (whence =? io_SeekEnd)]];
    intros H; injection H as <- <- <-; auto.
Qed.

Lemma Read_keeps_fields (r r' : Reader) (w w' : World) (buf : list byte)
    (res : Z * option error * list byte) :
  Read buf r w = Returned res r' w' ->
  url r' = url r /\ contentSize r' = contentSize r /\ head r' = head r.
Proof.
  rewrite Read_unfold.
  destruct (read buf (offset r) r w) as [[[n err] b] r0 w0|msg] eqn:E;
    [|discriminate].
  apply read_shape in E. destruct E as (-> & _).
  intros H. injection H as <- <- <-. auto.
Qed.

(** *** Construction *)

(** The probe returns, and never touches the reader. *)
Lemma size_returns (r : Reader) (w : World) :
  exists sz err w', size r w = Returned (sz, err) r w'.
Proof.
  unfold size, bind, this, ret, client_Do, NewRequest.
  destruct (url_ok (url r)); [|eauto].
  destruct (transport _ _) as [resp|msg]; [|eauto].
  destruct (ParseInt _); eauto.
Qed.

Lemma len_make (n : Z) : 0 <= n -> len (make n) = n.
Proof. intros H. unfold len, make. rewrite repeat_length. lia. Qed.

(** [NewReader_init], one call at a time. *)
Lemma NewReader_init_unfold (prefetch : Z) (r : Reader) (w : World) :
  NewReader_init prefetch r w =
    match size r w with
    | Returned (_, Some e) r1 w1 => Returned (Some e) r1 w1
    | Returned (sz, None) r1 w1 =>
        if prefetch >? 0 then
          match ReadAt (make prefetch) 0 (with_contentSize r1 sz) w1 with
          | Returned (total, err, b) r2 w2 =>
              let hd := match err with Some _ => [] | None => b end in
              if len hd >? total then
                match slice hd 0 total with
                | Some t => Returned None (with_head r2 t) w2
                | None => Panicked "slice bounds out of range"%string
                end
              else Returned None (with_head r2 hd) w2
          | Panicked msg => Panicked msg
          end
        else Returned None (with_contentSize r1 sz) w1
    | Panicked msg => Panicked msg
    end.
Proof.
  unfold NewReader_init, bind, ret, set_contentSize, set_head, index, panic.
  destruct (size r w) as [[sz [e|]] r1 w1|msg]; try reflexivity.
  destruct (prefetch >? 0); [|reflexivity].
  destruct (ReadAt _ _ _ _) as [[[total err] b] r2 w2|msg]; [|reflexivity].
  destruct (len _ >? total); [|reflexivity].
  destruct (slice _ _ _); reflexivity.
Qed.

(** The prefetch read of a fresh reader never hits the (empty) prefetch
    buffer. *)
Lemma prefetch_read_misses (u : string) (sz prefetch : Z) :
  0 < prefetch <= Int64.max_int ->
  prefetch_hit (mkReader u 0 sz []) (make prefetch) 0 = false.
Proof.
  intros Hp. apply prefetch_hit_false. simpl.
  rewrite len_make by lia. rewrite add_exact; simpl.
  - unfold len. simpl. lia.
  - unfold Int64.in_range, Int64.min_int, Int64.max_int in *. lia.
Qed.

(** What [NewReader] with a prefetch returns once the probe has given the
    size: the reader built from the result of the prefetch read. *)
Lemma NewReader_after_probe (u : string) (prefetch sz : Z) (w w1 : World) :
  0 < prefetch <= Int64.max_int ->
  size (mkReader u 0 0 []) w = Returned (sz, None) (mkReader u 0 0 []) w1 ->
  exists n err b w2,
    ReadAt (make prefetch) 0 (mkReader u 0 sz []) w1 =
      Returned (n, err, b) (mkReader u 0 sz []) w2 /\
    NewReader u prefetch w =
      Some (Some (mkReader u 0 sz
                    match err with Some _ => [] | None => b end),
            None, w2).
Proof.
  intros Hp Hsize.
  destruct (read_miss_returns (mkReader u 0 sz []) w1 (make prefetch) 0
              (prefetch_read_misses u sz prefetch Hp))
    as (n & err & b & w2 & Hread).
  exists n, err, b, w2. split; [exact Hread|].
  unfold NewReader. rewrite NewReader_init_unfold, Hsize.
  replace (prefetch >? 0) with true
    by (symmetry; rewrite Z.gtb_ltb; apply Z.ltb_lt; lia).
  unfold with_contentSize. simpl. unfold ReadAt in *. rewrite Hread.
  apply read_shape in Hread.
  destruct Hread as (_ & Hlen & [[-> ->]|(e & -> & -> & _)]); simpl.
  - replace (len b >? len (make prefetch)) with false; [reflexivity|].
    symmetry. rewrite Z.gtb_ltb. apply Z.ltb_ge. unfold len. lia.
  - reflexivity.
Qed.



(** *** When [read] returns and when it panics *)

(** A read request at a non-negative offset whose interval's end fits an
    [int64] returns. *)
Lemma read_request_returns
    (q : ReadCall) (r : Reader) (w : World) (buf : list byte) :
  0 <= start q r -> start q r + len buf <= Int64.max_int ->
  exists n err b r' w', call q buf r w = Returned (n, err, b) r' w'.
Proof.
  intros H0 Hfit. pose proof (len_nonneg buf) as Hlen.
  assert (Hend : Int64.add (start q r) (len buf) = start q r + len buf).
  { apply add_exact.
    unfold Int64.in_range, Int64.min_int, Int64.max_int in *. lia. }
  assert (Hread : exists n err b w',
             read buf (start q r) r w = Returned (n, err, b) r w').
  { destruct (prefetch_hit r buf (start q r)) eqn:Hit.
    - rewrite read_hit by assumption. apply prefetch_hit_true in Hit.
      rewrite Hend in *. rewrite slice_Some by lia. eauto.
    - apply read_miss_returns. assumption. }
  destruct Hread as (n & err & b & w' & Hread).
  destruct q as [|off]; simpl in *.
  - rewrite Read_unfold, Hread. eauto 6.
  - eauto 6.
Qed.

(** A read request at a negative offset whose interval ends before the
    end of the prefetch buffer panics on the slice expression. *)
Lemma read_request_panics_below_zero
    (q : ReadCall) (r : Reader) (w : World) (buf : list byte) :
  Int64.in_range (start q r) -> len buf <= Int64.max_int ->
  start q r < 0 -> start q r + len buf < len (head r) ->
  call q buf r w = Panicked "slice bounds out of range"%string.
Proof.
  intros Hr Hbuf Hneg Hcover. pose proof (len_nonneg buf) as Hlen.
  assert (Hend : Int64.add (start q r) (len buf) = start q r + len buf).
  { apply add_exact.
    unfold Int64.in_range, Int64.min_int, Int64.max_int in *. lia. }
  assert (Hread : read buf (start q r) r w =
                  Panicked "slice bounds out of range"%string).
  { rewrite read_hit by (apply prefetch_hit_true; lia).
    rewrite slice_None_negative by assumption. reflexivity. }
  destruct q as [|off]; simpl in *.
  - rewrite Read_unfold, Hread. reflexivity.
  - exact Hread.
Qed.

(** Seeking to [a] and then by [b] from there is seeking to the [int64]
    sum of [a] and [b]. *)
Lemma Seek_composition (r : Reader) (w : World) (a b : Z) :
  (Seek a io_SeekStart ;; Seek b io_SeekCurrent) r w =
  Seek (Int64.add a b) io_SeekStart r w.
Proof. reflexivity. Qed.

End Properties.

(** * Further properties of the operations *)

Section Operations.

Variable url_ok : string -> bool.
Variable transport : World -> Request -> Reply.

Local Set Warnings "-notation-for-abbreviation".

Notation read := (read url_ok transport).
Notation ReadAt := (ReadAt url_ok transport).
Notation Read := (Read url_ok transport).
Notation size := (size url_ok transport).
Notation NewReader := (NewReader url_ok transport).
Notation call := (call url_ok transport).
Notation serves := (serves transport).
Notation stateless := (stateless transport).

(** ** Auxiliary facts *)

(** Go's truncating [status/100 == 2] is [200 <= status <= 299]. *)
Lemma status_2xx (s : Z) : Z.quot s 100 = 2 <-> 200 <= s <= 299.
Proof.
  pose proof (Z.quot_rem' s 100) as Hqr.
  split.
  - intros Hq. rewrite Hq in Hqr.
    destruct (Z_lt_le_dec s 0) as [Hneg|Hpos].
    + pose proof (Z.rem_bound_abs s 100). lia.
    + pose proof (Z.rem_bound_pos s 100). lia.
  - intros Hs. symmetry. apply (Z.quot_unique s 100 2 (s - 200)); lia.
Qed.

(** [read] looks at the reader's URL, size and prefetch buffer only: with
    another cursor it does the same and hands that cursor back. *)
Lemma read_cursor_independent
    (r : Reader) (w : World) (buf : list byte) (off c : Z) :
  read buf off (with_offset r c) w =
    match read buf off r w with
    | Returned a r' w' => Returned a (with_offset r' c) w'
    | Panicked msg => Panicked msg
    end.
Proof.
  assert (Hhit : prefetch_hit (with_offset r c) buf off =
                 prefetch_hit r buf off) by reflexivity.
  destruct (prefetch_hit r buf off) eqn:Hit.
  - rewrite !read_hit by assumption. simpl.
    destruct (slice _ _ _); reflexivity.
  - destruct (Z_lt_le_dec off (contentSize r)) as [Hlt|Hge].
    + rewrite !read_fetch by assumption. simpl.
      destruct (url_ok (url r)); reflexivity.
    + rewrite !read_past_end by assumption. reflexivity.
Qed.

(** The count of a fetch is zero or the buffer's length. *)
Lemma fetched_count (buf : list byte) (rep : Reply) :
  (snd (fst (fetched buf rep)) <> None /\ fst (fst (fetched buf rep)) = 0 /\
   snd (fetched buf rep) = buf) \/
  (snd (fst (fetched buf rep)) = None /\
   fst (fst (fetched buf rep)) = len buf).
Proof.
  unfold fetched. destruct rep as [resp|msg].
  - destruct (negb _).
    + left. simpl. repeat split. discriminate.
    + destruct (resp_Body resp) as [body|msg].
      * destruct (len buf =? 0) eqn:E; simpl.
        -- left. apply Z.eqb_eq, len_nil_iff in E. subst buf.
           rewrite copy_nil. repeat split. discriminate.
        -- right. split; reflexivity.
      * left. simpl. repeat split. discriminate.
  - left. simpl. repeat split. discriminate.
Qed.

(** A read request that misses the prefetch buffer below the size, with a
    URL that parses: one GET is sent and its reply decides the result;
    [Read] moves the cursor by the count. *)
Lemma call_fetch (q : ReadCall) (r : Reader) (w : World) (buf : list byte) :
  Int64.in_range (offset r) -> len buf <= Int64.max_int ->
  prefetch_hit r buf (start q r) = false ->
  start q r < contentSize r -> url_ok (url r) = true ->
  call q buf r w =
    Returned (fetched buf (transport w (range_request r buf (start q r))))
      match q with
      | ByRead =>
          with_offset r
            (offset r +
             fst (fst (fetched buf
                         (transport w (range_request r buf (offset r))))))
      | ByReadAt _ => r
      end
      (w ++ [range_request r buf (start q r)]).
Proof.
  intros Hr Hbuf Hit Hlt Hurl.
  assert (Hread := read_fetch url_ok transport r w buf (start q r) Hit Hlt).
  rewrite Hurl in Hread.
  destruct q as [|off]; simpl in *; [|exact Hread].
  rewrite Read_unfold, Hread.
  set (rep := transport w (range_request r buf (offset r))).
  pose proof (fetched_count buf rep) as Hn.
  destruct (fetched buf rep) as [[n err] b]. simpl in *.
  f_equal. f_equal.
  destruct Hn as [(_ & -> & _)|(_ & ->)].
  - apply add_exact. now rewrite Z.add_0_r.
  - apply end_nonneg_exact; try assumption.
    apply prefetch_hit_false in Hit.
    pose proof (len_nonneg (head r)). lia.
Qed.

(** ** What a read request sends, and what it leaves alone *)

(** Every return of a read request ([Read] or [ReadAt]) has sent nothing,
    or exactly one request: a GET for the reader's URL, sent only when the
    URL parses, the offset is below the size and the prefetch test failed.
    For a non-empty buffer at a non-negative offset whose end fits an
    [int64], its range is [offset] to [offset + len(buf) - 1]. *)
Theorem read_request_log
    (q : ReadCall) (r r' : Reader) (w w' : World) (buf : list byte)
    (res : Z * option error * list byte) :
  call q buf r w = Returned res r' w' ->
  (w' = w \/
   (w' = w ++ [range_request r buf (start q r)] /\
    url_ok (url r) = true /\ start q r < contentSize r /\
    prefetch_hit r buf (start q r) = false)) /\
  req_method (range_request r buf (start q r)) = MethodGet /\
  req_url (range_request r buf (start q r)) = url r /\
  (0 <= start q r -> buf <> [] -> start q r + len buf <= Int64.max_int ->
   req_range (range_request r buf (start q r)) =
     Some (start q r, start q r + len buf - 1)).
Proof.
  intros Hcall.
  assert (Hread : exists a r0,
             read buf (start q r) r w = Returned a r0 w').
  { destruct q as [|off]; simpl in *; [|eauto].
    rewrite Read_unfold in Hcall.
    destruct (read buf (offset r) r w) as [[[n err] b] r0 w0|msg];
      [|discriminate].
    injection Hcall as _ _ <-. eauto. }
  destruct Hread as (a & r0 & Hread). clear Hcall.
  split; [|split; [reflexivity|split; [reflexivity|]]].
  - destruct (prefetch_hit r buf (start q r)) eqn:Hit.
    + rewrite read_hit in Hread by assumption.
      destruct (slice _ _ _); [|discriminate].
      injection Hread as _ _ <-. auto.
    + destruct (Z_lt_le_dec (start q r) (contentSize r)) as [Hlt|Hge].
      * rewrite read_fetch in Hread by assumption.
        destruct (url_ok (url r)) eqn:Hurl.
        -- injection Hread as _ _ <-. auto.
        -- injection Hread as _ _ <-. auto.
      * rewrite read_past_end in Hread by assumption.
        injection Hread as _ _ <-. auto.
  - intros H0 Hne Hfit. unfold range_request. simpl.
    assert (Hlen : 0 < len buf).
    { pose proof (len_nonneg buf). rewrite <- len_nil_iff in Hne. lia. }
    rewrite (add_exact (start q r) (len buf))
      by (unfold Int64.in_range, Int64.min_int, Int64.max_int in *; lia).
    unfold Int64.sub. rewrite wrap_in_range; [reflexivity|].
    unfold Int64.in_range, Int64.min_int, Int64.max_int in *. lia.
Qed.

(** A read request never changes the length of the caller's buffer, and
    when it returns an error it has read nothing: the count is 0 and the
    buffer and the reader, cursor included, are as before. *)
Theorem read_error_leaves_buffer
    (q : ReadCall) (r r' : Reader) (w w' : World) (buf b : list byte)
    (n : Z) (err : option error) :
  Int64.in_range (offset r) ->
  call q buf r w = Returned (n, err, b) r' w' ->
  length b = length buf /\
  (err <> None -> n = 0 /\ b = buf /\ r' = r).
Proof.
  intros Hr Hcall.
  assert (Hread : exists r0,
             read buf (start q r) r w = Returned (n, err, b) r0 w' /\
             (n = 0 -> r0 = r -> r' = r)).
  { destruct q as [|off]; simpl in *; [|eauto].
    rewrite Read_unfold in Hcall.
    destruct (read buf (offset r) r w) as [[[n0 err0] b0] r0 w0|msg];
      [|discriminate].
    injection Hcall as <- <- <- <- <-. exists r0. split; [reflexivity|].
    intros -> ->. rewrite add_exact by (now rewrite Z.add_0_r).
    rewrite Z.add_0_r. apply with_offset_same. }
  destruct Hread as (r0 & Hread & Hback).
  apply read_shape in Hread.
  destruct Hread as (-> & Hlen & [[-> ->]|(e & -> & -> & ->)]).
  - split; [assumption|]. intros H. contradiction.
  - split; [assumption|]. intros _. auto.
Qed.

(** ** Errors of the remote fetch *)

(** A reply whose status is outside 200..299 makes the read request fail
    with the bad-status error carrying that status: nothing is read, the
    cursor stays, and the one request is not repeated. *)
Theorem non_2xx_status_is_reported
    (q : ReadCall) (r : Reader) (w : World) (buf : list byte)
    (resp : Response) :
  Int64.in_range (offset r) -> len buf <= Int64.max_int ->
  prefetch_hit r buf (start q r) = false ->
  start q r < contentSize r -> url_ok (url r) = true ->
  transport w (range_request r buf (start q r)) = Responded resp ->
  ~ 200 <= StatusCode resp <= 299 ->
  call q buf r w =
    Returned (0, Some (ErrBadStatusCode (StatusCode resp)), buf) r
             (w ++ [range_request r buf (start q r)]).
Proof.
  intros Hr Hbuf Hit Hlt Hurl Hrep Hst.
  rewrite call_fetch by assumption.
  assert (Hf : forall o,
             o = start q r ->
             fetched buf (transport w (range_request r buf o)) =
             (0, Some (ErrBadStatusCode (StatusCode resp)), buf)).
  { intros o ->. rewrite Hrep. unfold fetched.
    replace (Z.quot (StatusCode resp) 100 =? 2) with false; [reflexivity|].
    symmetry. apply Z.eqb_neq. now rewrite status_2xx. }
  rewrite (Hf _ eq_refl).
  destruct q as [|off]; simpl in *; [|reflexivity].
  rewrite (Hf _ eq_refl). simpl.
  rewrite Z.add_0_r, with_offset_same. reflexivity.
Qed.

(** A failure of the transport, and a 2xx reply whose body cannot be
    read, are passed on as they are: nothing is read, the cursor stays,
    and the one request is not repeated. *)
Theorem transport_and_body_errors_are_passed_on
    (q : ReadCall) (r : Reader) (w : World) (buf : list byte) :
  Int64.in_range (offset r) -> len buf <= Int64.max_int ->
  prefetch_hit r buf (start q r) = false ->
  start q r < contentSize r -> url_ok (url r) = true ->
  (forall msg,
     transport w (range_request r buf (start q r)) = TransportFailed msg ->
     call q buf r w =
       Returned (0, Some (ErrTransport msg), buf) r
                (w ++ [range_request r buf (start q r)])) /\
  (forall resp msg,
     transport w (range_request r buf (start q r)) = Responded resp ->
     200 <= StatusCode resp <= 299 ->
     resp_Body resp = BodyBroken msg ->
     call q buf r w =
       Returned (0, Some (ErrReadBody msg), buf) r
                (w ++ [range_request r buf (start q r)])).
Proof.
  intros Hr Hbuf Hit Hlt Hurl.
  assert (Hzero : forall e,
            fetched buf (transport w (range_request r buf (start q r))) =
              (0, Some e, buf) ->
            call q buf r w =
              Returned (0, Some e, buf) r
                       (w ++ [range_request r buf (start q r)])).
  { intros e Hf. rewrite call_fetch by assumption. rewrite Hf.
    destruct q as [|off]; simpl in *; [|reflexivity].
    rewrite Hf. simpl. rewrite Z.add_0_r, with_offset_same. reflexivity. }
  split.
  - intros msg Hrep. apply Hzero. rewrite Hrep. reflexivity.
  - intros resp msg Hrep Hst Hbody. apply Hzero. rewrite Hrep.
    unfold fetched. apply status_2xx in Hst. rewrite Hst, Hbody.
    reflexivity.
Qed.

(** ** Reading from a server that honours ranges *)

Lemma range_request_exact (r : Reader) (buf : list byte) (off : Z) :
  0 <= off -> buf <> [] -> off + len buf <= Int64.max_int ->
  Int64.add off (len buf) = off + len buf /\
  range_request r buf off =
    mkRequest MethodGet (url r) (Some (off, off + len buf - 1)).
Proof.
  intros H0 Hne Hfit.
  assert (Hlen : 0 < len buf).
  { pose proof (len_nonneg buf). rewrite <- len_nil_iff in Hne. lia. }
  assert (Hend : Int64.add off (len buf) = off + len buf).
  { apply add_exact.
    unfold Int64.in_range, Int64.min_int, Int64.max_int in *. lia. }
  split; [exact Hend|]. unfold range_request. rewrite Hend.
  unfold Int64.sub. rewrite wrap_in_range; [reflexivity|].
  unfold Int64.in_range, Int64.min_int, Int64.max_int in *. lia.
Qed.

Lemma interval_length (content : list byte) (off : Z) (n : nat) :
  0 <= off -> off + Z.of_nat n <= len content ->
  length (interval content off n) = n.
Proof.
  intros H0 Hin. unfold interval, len in *.
  rewrite length_firstn, length_skipn. lia.
Qed.

(** [read] past the prefetch buffer, against a server that honours
    ranges: the bytes of the interval that exist overwrite the front of
    the buffer, and the count is the buffer's length. *)
Lemma read_from_server
    (r : Reader) (w : World) (buf content : list byte) (off : Z) :
  serves (url r) content -> url_ok (url r) = true ->
  len (head r) <= off + len buf ->
  0 <= off -> off < contentSize r -> off < len content ->
  buf <> [] -> off + len buf <= Int64.max_int ->
  read buf off r w =
    Returned (len buf, None, copy buf (interval content off (length buf))) r
      (w ++ [mkRequest MethodGet (url r) (Some (off, off + len buf - 1))]).
Proof.
  intros Hs Hurl Hmiss H0 Hlt Hin Hne Hfit.
  destruct (range_request_exact r buf off H0 Hne Hfit) as [Hend Hreq].
  assert (Hlen : 0 < len buf).
  { pose proof (len_nonneg buf). rewrite <- len_nil_iff in Hne. lia. }
  rewrite read_fetch;
    [|apply prefetch_hit_false; rewrite Hend; exact Hmiss|exact Hlt].
  rewrite Hurl, Hreq.
  destruct (Hs w off (off + len buf - 1)) as (resp & -> & Hst & Hbody);
    try lia.
  unfold fetched. rewrite Hst, Hbody. simpl.
  replace (len buf =? 0) with false by (symmetry; apply Z.eqb_neq; lia).
  replace (Z.to_nat (off + len buf - 1 - off + 1)) with (length buf)
    by (unfold len; lia).
  reflexivity.
Qed.

(** A read request ([Read] or [ReadAt]) that starts inside the resource,
    past the prefetch buffer, against a server that honours ranges,
    returns [len(buf)] and no error after one GET for
    [[offset, offset+len(buf)-1]]; the buffer holds the bytes of the
    interval that exist, followed by its old contents, and exactly the
    interval when it lies inside the resource.  [Read] moves the cursor by
    [len(buf)]. *)
Theorem read_fetches_the_interval
    (q : ReadCall) (r : Reader) (w : World) (buf content : list byte) :
  serves (url r) content -> url_ok (url r) = true ->
  len (head r) <= start q r + len buf ->
  0 <= start q r -> start q r < contentSize r -> start q r < len content ->
  buf <> [] -> start q r + len buf <= Int64.max_int ->
  call q buf r w =
    Returned
      (len buf, None, copy buf (interval content (start q r) (length buf)))
      match q with
      | ByRead => with_offset r (offset r + len buf)
      | ByReadAt _ => r
      end
      (w ++ [mkRequest MethodGet (url r)
               (Some (start q r, start q r + len buf - 1))]) /\
  (start q r + len buf <= len content ->
   copy buf (interval content (start q r) (length buf)) =
   firstn (length buf) (skipn (Z.to_nat (start q r)) content)).
Proof.
  intros Hs Hurl Hmiss H0 Hlt Hin Hne Hfit. split.
  - pose proof (read_from_server r w buf content (start q r)
                  Hs Hurl Hmiss H0 Hlt Hin Hne Hfit) as Hread.
    destruct q as [|off]; simpl in *; [|exact Hread].
    rewrite Read_unfold, Hread. simpl.
    destruct (range_request_exact r buf (offset r) H0 Hne Hfit) as [-> _].
    reflexivity.
  - intros Hinside. apply copy_same_length.
    apply interval_length; [assumption|]. exact Hinside.
Qed.

(** Prefetch transparency: when the prefetch buffer is a prefix of the
    resource, a [ReadAt] it serves returns the bytes of the interval
    without any request, and they are the bytes the same [ReadAt] fetches
    from a server that honours ranges when the reader has no prefetch
    buffer. *)
Theorem prefetch_is_transparent
    (r : Reader) (w : World) (buf content : list byte) (off : Z) :
  head r = firstn (length (head r)) content ->
  len (head r) <= Int64.max_int ->
  0 <= off -> off + len buf < len (head r) ->
  ReadAt buf off r w =
    Returned (len buf, None, interval content off (length buf)) r w /\
  (serves (url r) content -> url_ok (url r) = true ->
   off < contentSize r -> buf <> [] ->
   ReadAt buf off (with_head r []) w =
     Returned (len buf, None, interval content off (length buf))
       (with_head r [])
       (w ++ [mkRequest MethodGet (url r) (Some (off, off + len buf - 1))])).
Proof.
  intros Hprefix Hhead H0 Hcover. pose proof (len_nonneg buf) as Hlen.
  assert (Hshort : (length (head r) <= length content)%nat).
  { rewrite Hprefix. rewrite length_firstn. lia. }
  assert (Hend : Int64.add off (len buf) = off + len buf).
  { apply add_exact.
    unfold Int64.in_range, Int64.min_int, Int64.max_int in *. lia. }
  assert (Hint : length (interval content off (length buf)) = length buf).
  { apply interval_length; [assumption|]. unfold len in *. lia. }
  split.
  - unfold ReadAt. rewrite read_hit by (apply prefetch_hit_true; lia).
    rewrite Hend, slice_Some by lia.
    replace (Z.to_nat (off + len buf - off)) with (length buf)
      by (unfold len; lia).
    assert (Hsame : firstn (length buf) (skipn (Z.to_nat off) (head r)) =
                    interval content off (length buf)).
    { unfold interval. rewrite Hprefix at 1.
      rewrite skipn_firstn_comm, firstn_firstn.
      f_equal. unfold len in *. lia. }
    rewrite Hsame, copy_same_length by assumption. reflexivity.
  - intros Hs Hurl Hlt Hne. unfold ReadAt.
    rewrite (read_from_server (with_head r []) w buf content off);
      simpl; try assumption.
    + rewrite copy_same_length by assumption. reflexivity.
    + unfold len at 1. simpl. lia.
    + unfold len in *. lia.
    + unfold Int64.max_int in *. lia.
Qed.


(** Two [Read]s in a row, against a server that honours ranges, deliver
    consecutive bytes: together they hold the interval a single [Read]
    into a buffer of both lengths delivers, and they leave the cursor
    where it leaves it. *)
Theorem consecutive_Reads_are_contiguous
    (r : Reader) (w : World) (buf1 buf2 content : list byte) :
  serves (url r) content -> url_ok (url r) = true ->
  len (head r) <= offset r + len buf1 ->
  0 <= offset r -> buf1 <> [] -> buf2 <> [] ->
  offset r + len buf1 + len buf2 <= len content ->
  offset r + len buf1 + len buf2 <= contentSize r ->
  offset r + len buf1 + len buf2 <= Int64.max_int ->
  exists w2 w1,
    ('(_, _, b1) <- Read buf1 ;; '(_, _, b2) <- Read buf2 ;; ret (b1 ++ b2))
      r w =
      Returned (interval content (offset r) (length buf1 + length buf2))
        (with_offset r (offset r + len buf1 + len buf2)) w2 /\
    Read (buf1 ++ buf2) r w =
      Returned (len buf1 + len buf2, None,
                interval content (offset r) (length buf1 + length buf2))
        (with_offset r (offset r + len buf1 + len buf2)) w1.
Proof.
  intros Hs Hurl Hmiss H0 Hne1 Hne2 Hin Hsz Hfit.
  pose proof (len_nonneg buf1) as Hl1. pose proof (len_nonneg buf2) as Hl2.
  assert (Hp1 : 0 < len buf1) by (rewrite <- len_nil_iff in Hne1; lia).
  assert (Hp2 : 0 < len buf2) by (rewrite <- len_nil_iff in Hne2; lia).
  set (c := offset r) in *.
  assert (Hr1 := read_from_server r w buf1 content c).
  rewrite (copy_same_length buf1) in Hr1
    by (apply interval_length; fold (len buf1); lia).
  set (r1 := with_offset r (c + len buf1)).
  set (w1 := w ++ [mkRequest MethodGet (url r) (Some (c, c + len buf1 - 1))]).
  assert (Hr2 := read_from_server r1 w1 buf2 content (c + len buf1)).
  rewrite (copy_same_length buf2) in Hr2
    by (apply interval_length; fold (len buf2); lia).
  assert (Hlen12 : len (buf1 ++ buf2) = len buf1 + len buf2).
  { unfold len. rewrite length_app. lia. }
  assert (Hr12 := read_from_server r w (buf1 ++ buf2) content c).
  rewrite Hlen12, length_app in Hr12.
  rewrite (copy_same_length (buf1 ++ buf2)) in Hr12
    by (rewrite length_app; apply interval_length; unfold len in *; lia).
  eexists. eexists. split.
  - unfold bind. rewrite Read_unfold. fold c.
    rewrite Hr1; try assumption; try lia.
    cbv beta iota. fold c.
    rewrite (add_exact c (len buf1))
      by (unfold Int64.in_range, Int64.min_int, Int64.max_int in *; lia).
    fold r1 w1. rewrite Read_unfold.
    change (offset r1) with (c + len buf1).
    rewrite Hr2; try assumption; try (simpl; lia).
    cbv beta iota. change (offset r1) with (c + len buf1).
    rewrite (add_exact (c + len buf1) (len buf2))
      by (unfold Int64.in_range, Int64.min_int, Int64.max_int in *; lia).
    unfold ret. f_equal.
    unfold interval. rewrite <- (firstn_skipn (length buf1)
      (firstn (length buf1 + length buf2) (skipn (Z.to_nat c) content))).
    f_equal.
    + rewrite firstn_firstn. f_equal. lia.
    + rewrite skipn_firstn_comm, skipn_skipn. f_equal; [lia|].
      f_equal. unfold len. lia.
  - rewrite Read_unfold. fold c.
    rewrite Hr12; try assumption; try lia.
    + cbv beta iota. fold c. rewrite add_exact
        by (unfold Int64.in_range, Int64.min_int, Int64.max_int in *; lia).
      rewrite (Z.add_assoc c). reflexivity.
    + intros Hnil. apply app_eq_nil in Hnil. tauto.
Qed.

(** ** Repeating a positional read *)

Lemma copy_idem {A : Type} (dst src : list A) :
  copy (copy dst src) src = copy dst src.
Proof.
  unfold copy at 1. rewrite copy_length. unfold copy.
  f_equal. rewrite skipn_app, length_firstn.
  destruct (Nat.le_gt_cases (length src) (length dst)) as [Hle|Hgt].
  - rewrite (skipn_all2 (firstn _ _)) by (rewrite length_firstn; lia).
    replace (length src - Nat.min (length dst) (length src))%nat with 0%nat
      by lia.
    reflexivity.
  - rewrite (skipn_all2 (firstn _ _)) by (rewrite length_firstn; lia).
    rewrite (skipn_all2 dst) by lia.
    rewrite skipn_nil. reflexivity.
Qed.

Lemma fetched_idem (buf : list byte) (rep : Reply) :
  fetched (snd (fetched buf rep)) rep = fetched buf rep.
Proof.
  unfold fetched. destruct rep as [resp|msg]; [|reflexivity].
  destruct (negb _); [reflexivity|].
  destruct (resp_Body resp) as [body|msg]; [|reflexivity].
  assert (Hlen : len (copy buf body) = len buf)
    by (unfold len; now rewrite copy_length).
  destruct (len buf =? 0) eqn:E; simpl; rewrite Hlen, E, copy_idem;
    reflexivity.
Qed.

(** With a transport that answers a request alike at any time, [ReadAt]
    can be repeated: called again with the buffer it filled, at the same
    offset, it returns the same count, the same error and the same
    bytes. *)
Theorem ReadAt_is_idempotent
    (r r' : Reader) (w w' : World) (buf b : list byte) (off n : Z)
    (err : option error) :
  stateless ->
  ReadAt buf off r w = Returned (n, err, b) r' w' ->
  exists w'', ReadAt b off r' w' = Returned (n, err, b) r' w''.
Proof.
  intros Hstate Hread. unfold ReadAt in *.
  pose proof (read_shape _ _ _ _ _ _ _ _ _ _ _ Hread) as (-> & Hlen & _).
  assert (Hl : len b = len buf) by (unfold len; now rewrite Hlen).
  assert (Hhit : prefetch_hit r b off = prefetch_hit r buf off)
    by (unfold prefetch_hit; now rewrite Hl).
  assert (Hreq : range_request r b off = range_request r buf off)
    by (unfold range_request; now rewrite Hl).
  destruct (prefetch_hit r buf off) eqn:Hit.
  - rewrite read_hit in * by assumption. rewrite Hl.
    destruct (slice _ _ _) as [src|]; [|discriminate].
    injection Hread as <- <- <- <-.
    rewrite copy_idem. eauto.
  - destruct (Z_lt_le_dec off (contentSize r)) as [Hlt|Hge].
    + rewrite read_fetch in * by assumption. rewrite Hreq.
      destruct (url_ok (url r)).
      * injection Hread as Hf <-.
        rewrite (Hstate _ w (range_request r buf off)).
        pose proof (fetched_idem buf (transport w (range_request r buf off)))
          as Hagain.
        rewrite Hf in Hagain. simpl in Hagain. rewrite Hagain. eauto.
      * injection Hread as <- <- <- <-. eauto.
    + rewrite read_past_end in * by assumption.
      injection Hread as <- <- <- <-. eauto.
Qed.

(** ** Seeking *)

Lemma wrap_add_l (a b : Z) : Int64.wrap (Int64.wrap a + b) = Int64.wrap (a + b).
Proof.
  unfold Int64.wrap.
  replace ((a + 2 ^ 63) mod 2 ^ 64 - 2 ^ 63 + b + 2 ^ 63)
    with ((a + 2 ^ 63) mod 2 ^ 64 + b) by lia.
  rewrite Z.add_mod_idemp_l by lia.
  do 2 f_equal. lia.
Qed.

Lemma Seek_current_run (r : Reader) (w : World) (off : Z) :
  Seek off io_SeekCurrent r w =
    Returned (Int64.add (offset r) off, None)
             (with_offset r (Int64.add (offset r) off)) w.
Proof. reflexivity. Qed.

Lemma Seek_end_run (r : Reader) (w : World) (off : Z) :
  Seek off io_SeekEnd r w =
    Returned (Int64.sub (contentSize r) off, None)
             (with_offset r (Int64.sub (contentSize r) off)) w.
Proof. reflexivity. Qed.

(** [Seek(offset, io.SeekStart)] followed by [Read] returns what [ReadAt]
    at that offset returns, and sends what it sends; a panic is the same
    panic. *)
Theorem Seek_then_Read_is_ReadAt
    (r : Reader) (w : World) (buf : list byte) (off : Z) :
  observe ((Seek off io_SeekStart ;; Read buf) r w) =
  observe (ReadAt buf off r w).
Proof.
  unfold bind. simpl. rewrite Read_unfold. simpl.
  rewrite read_cursor_independent. unfold ReadAt.
  destruct (read buf off r w) as [[[n err] b] r' w'|msg]; reflexivity.
Qed.

(** Seeking by [d] from the current position and then by [-d] brings
    the cursor back, even when the first step wrapped around. *)
Theorem Seek_current_there_and_back (r : Reader) (w : World) (d : Z) :
  Int64.in_range (offset r) ->
  (Seek d io_SeekCurrent ;; Seek (- d) io_SeekCurrent) r w =
    Returned (offset r, None) r w.
Proof.
  intros Hr. unfold bind. rewrite !Seek_current_run.
  cbn [offset with_offset contentSize head url].
  assert (Hback : Int64.add (Int64.add (offset r) d) (- d) = offset r).
  { unfold Int64.add. rewrite wrap_add_l.
    replace (offset r + d + - d) with (offset r) by lia.
    apply wrap_in_range. assumption. }
  rewrite Hback. destruct r. reflexivity.
Qed.


(** [Seek(k, io.SeekEnd)] counts [k] back from the end: against a server
    that honours ranges, the [Read] of a [k]-byte buffer that follows
    returns the last [k] bytes of the resource and leaves the cursor at
    the size. *)
Theorem Seek_from_the_end_reads_the_tail
    (r : Reader) (w : World) (buf content : list byte) :
  serves (url r) content -> url_ok (url r) = true ->
  contentSize r = len content -> len (head r) <= contentSize r ->
  buf <> [] -> len buf <= len content -> len content <= Int64.max_int ->
  (Seek (len buf) io_SeekEnd ;; Read buf) r w =
    Returned (len buf, None, skipn (length content - length buf) content)
      (with_offset r (contentSize r))
      (w ++ [mkRequest MethodGet (url r)
               (Some (len content - len buf, len content - 1))]).
Proof.
  intros Hs Hurl Hsz Hinv Hne Hk Hfit. unfold bind. rewrite Seek_end_run.
  pose proof (len_nonneg buf) as Hl.
  assert (Hp : 0 < len buf) by (rewrite <- len_nil_iff in Hne; lia).
  assert (Hsub : Int64.sub (contentSize r) (len buf) = len content - len buf).
  { rewrite Hsz. apply wrap_in_range.
    unfold Int64.in_range, Int64.min_int, Int64.max_int in *. lia. }
  rewrite Hsub. rewrite Read_unfold.
  cbn [offset with_offset contentSize head url].
  rewrite (read_from_server _ w buf content (len content - len buf));
    cbn [offset with_offset contentSize head url];
    try assumption; try lia.
  cbv beta iota. cbn [offset with_offset contentSize head url].
  rewrite add_exact
    by (unfold Int64.in_range, Int64.min_int, Int64.max_int in *; lia).
  rewrite Hsz.
  replace (len content - len buf + len buf) with (len content) by lia.
  f_equal. f_equal.
  unfold interval.
  replace (Z.to_nat (len content - len buf))
    with (length content - length buf)%nat by (unfold len in *; lia).
  rewrite firstn_all2 by (rewrite length_skipn; unfold len in *; lia).
  apply copy_same_length. rewrite length_skipn. unfold len in *. lia.
Qed.

(** ** Construction *)

Lemma ParseInt_in_range (s : string) (v : Z) :
  ParseInt s = inl v -> Int64.in_range v.
Proof.
  unfold ParseInt.
  destruct (match s with
            | String "+"%char s' => (false, s')
            | String "-"%char s' => (true, s')
            | _ => (false, s)
            end) as [neg ds].
  destruct ds as [|c ds]; [discriminate|].
  destruct (parse_digits _ _) as [n|]; [|discriminate].
  destruct (Int64.in_rangeb _) eqn:E; [|discriminate].
  intros H. injection H as <-.
  unfold Int64.in_rangeb in E. apply andb_prop in E. destruct E as [E1 E2].
  apply Z.leb_le in E1, E2. split; assumption.
Qed.

Lemma Header_Get_missing (h : Header) (key : string) :
  (forall v, ~ In (key, v) h) -> Header_Get h key = EmptyString.
Proof.
  induction h as [|[k v] h IH]; intros Hno; [reflexivity|]. simpl.
  destruct (String.eqb k key) eqn:E.
  - apply String.eqb_eq in E. subst k.
    exfalso. apply (Hno v). left. reflexivity.
  - apply IH. intros v' Hin. apply (Hno v'). right. assumption.
Qed.

(** The probe: a bad URL fails before anything is sent; otherwise one
    HEAD is sent, and a size, when one is returned, is an [int64]. *)
Lemma size_result (r r' : Reader) (w w' : World) (sz : Z)
    (err : option error) :
  size r w = Returned (sz, err) r' w' ->
  r' = r /\
  ((url_ok (url r) = false /\ err = Some (ErrNewRequest (url r)) /\ w' = w) \/
   (url_ok (url r) = true /\ w' = w ++ [mkRequest MethodHead (url r) None] /\
    (err = None -> Int64.in_range sz))).
Proof.
  unfold size, bind, this, ret, client_Do, NewRequest.
  destruct (url_ok (url r)).
  - destruct (transport _ _) as [resp|msg].
    + destruct (ParseInt _) as [v|e] eqn:Ep; intros H;
        injection H as <- <- <- <-; (split; [reflexivity|]); right;
        (split; [reflexivity|]); (split; [reflexivity|]).
      * intros _. eapply ParseInt_in_range. eassumption.
      * discriminate.
    + intros H. injection H as <- <- <- <-. split; [reflexivity|].
      right. split; [reflexivity|]. split; [reflexivity|discriminate].
  - intros H. injection H as <- <- <- <-. auto.
Qed.

(** The log of a return of [read]: nothing new, or its one request below
    the size. *)
Lemma read_log (r r' : Reader) (w w' : World) (buf : list byte) (off : Z)
    (res : Z * option error * list byte) :
  read buf off r w = Returned res r' w' ->
  w' = w \/ (w' = w ++ [range_request r buf off] /\ off < contentSize r).
Proof.
  intros Hread.
  destruct (prefetch_hit r buf off) eqn:Hit.
  - rewrite read_hit in Hread by assumption.
    destruct (slice _ _ _); [|discriminate].
    injection Hread as _ _ <-. auto.
  - destruct (Z_lt_le_dec off (contentSize r)) as [Hlt|Hge].
    + rewrite read_fetch in Hread by assumption.
      destruct (url_ok (url r)); injection Hread as _ _ <-; auto.
    + rewrite read_past_end in Hread by assumption.
      injection Hread as _ _ <-. auto.
Qed.

(** With a prefetch of zero or less, [NewReader] sends the probe and
    nothing else, and whatever the status of the reply (it is not looked
    at) the reader has the size of its [Content-Length] header, the
    cursor at 0 and an empty prefetch buffer. *)
Theorem NewReader_without_prefetch
    (u : string) (prefetch sz : Z) (w : World) (resp : Response) :
  prefetch <= 0 -> url_ok u = true ->
  transport w (mkRequest MethodHead u None) = Responded resp ->
  ParseInt (Header_Get (resp_Header resp) "Content-Length"%string) = inl sz ->
  NewReader u prefetch w =
    Some (Some (mkReader u 0 sz []), None, w ++ [mkRequest MethodHead u None]).
Proof.
  intros Hp Hurl Hrep Hparse.
  unfold NewReader. rewrite NewReader_init_unfold.
  unfold size, bind, this, ret, client_Do, NewRequest.
  cbn [url]. rewrite Hurl, Hrep, Hparse.
  replace (prefetch >? 0) with false
    by (symmetry; rewrite Z.gtb_ltb; apply Z.ltb_ge; lia).
  reflexivity.
Qed.

(** Construction fails with the probe, whatever the prefetch: a URL that
    does not parse fails before anything is sent; a transport failure and
    a [Content-Length] header that does not parse as an [int64] fail after
    the one HEAD, with that error; a reply without the header fails as the
    empty string does. *)
Theorem NewReader_fails_with_the_probe
    (u : string) (prefetch : Z) (w : World) :
  (url_ok u = false ->
   NewReader u prefetch w = Some (None, Some (ErrNewRequest u), w)) /\
  (url_ok u = true ->
   (forall msg,
      transport w (mkRequest MethodHead u None) = TransportFailed msg ->
      NewReader u prefetch w =
        Some (None, Some (ErrTransport msg),
              w ++ [mkRequest MethodHead u None])) /\
   (forall resp e,
      transport w (mkRequest MethodHead u None) = Responded resp ->
      ParseInt (Header_Get (resp_Header resp) "Content-Length"%string) =
        inr e ->
      NewReader u prefetch w =
        Some (None, Some e, w ++ [mkRequest MethodHead u None])) /\
   (forall resp,
      transport w (mkRequest MethodHead u None) = Responded resp ->
      (forall v, ~ In ("Content-Length"%string, v) (resp_Header resp)) ->
      NewReader u prefetch w =
        Some (None, Some (ErrParseInt EmptyString),
              w ++ [mkRequest MethodHead u None]))).
Proof.
  assert (Hrun : forall sz e w',
            size (mkReader u 0 0 []) w =
              Returned (sz, Some e) (mkReader u 0 0 []) w' ->
            NewReader u prefetch w = Some (None, Some e, w')).
  { intros sz e w' Hsize. unfold NewReader.
    rewrite NewReader_init_unfold, Hsize. reflexivity. }
  split.
  - intros Hurl. apply (Hrun 0).
    unfold size, bind, this, ret, NewRequest. cbn [url]. rewrite Hurl.
    reflexivity.
  - intros Hurl.
    assert (Hparse : forall resp e,
              transport w (mkRequest MethodHead u None) = Responded resp ->
              ParseInt (Header_Get (resp_Header resp)
                          "Content-Length"%string) = inr e ->
              NewReader u prefetch w =
                Some (None, Some e, w ++ [mkRequest MethodHead u None])).
    { intros resp e Hrep Hp. apply (Hrun 0).
      unfold size, bind, this, ret, client_Do, NewRequest. cbn [url].
      rewrite Hurl, Hrep, Hp. reflexivity. }
    split; [|split].
    + intros msg Hrep. apply (Hrun 0).
      unfold size, bind, this, ret, client_Do, NewRequest. cbn [url].
      rewrite Hurl, Hrep. reflexivity.
    + exact Hparse.
    + intros resp Hrep Hno. apply (Hparse resp); [assumption|].
      rewrite Header_Get_missing by assumption. reflexivity.
Qed.

(** Whatever [NewReader] returns for a prefetch that fits an [int], it has
    sent the probe first and at most one GET after it, for the bytes [0]
    to [prefetch - 1] and only when the size is positive.  A reader it
    returns has the URL it was given, the cursor at 0, an [int64] size and
    a prefetch buffer that is empty or [prefetch] bytes long. *)
Theorem NewReader_result_shape
    (u : string) (prefetch : Z) (w w' : World)
    (ro : option Reader) (eo : option error) :
  prefetch <= Int64.max_int ->
  NewReader u prefetch w = Some (ro, eo, w') ->
  (w' = w \/ w' = w ++ [mkRequest MethodHead u None] \/
   (0 < prefetch /\
    w' = w ++ [mkRequest MethodHead u None;
               mkRequest MethodGet u (Some (0, prefetch - 1))])) /\
  match ro with
  | Some r =>
      eo = None /\ url r = u /\ offset r = 0 /\
      Int64.in_range (contentSize r) /\
      (head r = [] \/ len (head r) = prefetch) /\
      (w' <> w ++ [mkRequest MethodHead u None] -> 0 < contentSize r)
  | None => (exists e, eo = Some e) /\
            (w' = w \/ w' = w ++ [mkRequest MethodHead u None])
  end.
Proof.
  intros Hmax Hnew.
  destruct (size_returns url_ok transport (mkReader u 0 0 []) w)
    as (sz & err & w1 & Hsize).
  pose proof (size_result _ _ _ _ _ _ Hsize) as (_ & Hprobe).
  cbn [url] in Hprobe.
  destruct err as [e|].
  - unfold NewReader in Hnew.
    rewrite NewReader_init_unfold, Hsize in Hnew.
    injection Hnew as <- <- <-.
    assert (Hw : w1 = w \/ w1 = w ++ [mkRequest MethodHead u None]).
    { destruct Hprobe as [(_ & _ & ->)|(_ & -> & _)]; auto. }
    split; [tauto|]. split; [eauto|assumption].
  - destruct Hprobe as [(_ & Habs & _)|(Hurl & -> & Hrange)];
      [discriminate|].
    specialize (Hrange eq_refl).
    destruct (Z_lt_le_dec 0 prefetch) as [Hpos|Hnone].
    + destruct (NewReader_after_probe url_ok transport u prefetch sz w _
                  (conj Hpos Hmax) Hsize)
        as (n & err & b & w2 & Hread & Heq).
      rewrite Heq in Hnew. injection Hnew as <- <- <-.
      unfold ReadAt in Hread.
      pose proof (read_log _ _ _ _ _ _ _ Hread) as Hlog.
      pose proof (read_shape _ _ _ _ _ _ _ _ _ _ _ Hread)
        as (_ & Hlen & Hcount).
      assert (Hmake : len (make prefetch) = prefetch)
        by (apply len_make; lia).
      assert (Hreq : range_request (mkReader u 0 sz []) (make prefetch) 0 =
                     mkRequest MethodGet u (Some (0, prefetch - 1))).
      { destruct (range_request_exact (mkReader u 0 sz []) (make prefetch) 0)
          as [_ ->]; try lia.
        - rewrite <- len_nil_iff. lia.
        - rewrite Hmake. reflexivity. }
      rewrite Hreq in Hlog. cbn [contentSize] in Hlog.
      split.
      * destruct Hlog as [->|[-> _]]; [auto|].
        right. right. split; [assumption|].
        rewrite <- app_assoc. reflexivity.
      * cbn [url offset contentSize head].
        repeat (split; [reflexivity || assumption|]).
        split.
        -- destruct Hcount as [[-> _]|(e & -> & _)]; [|auto].
           right. unfold len in *. rewrite Hlen. exact Hmake.
        -- intros Hmore. destruct Hlog as [->|[_ Hsz]]; [contradiction|].
           exact Hsz.
    + unfold NewReader in Hnew.
      rewrite NewReader_init_unfold, Hsize in Hnew.
      replace (prefetch >? 0) with false in Hnew
        by (symmetry; rewrite Z.gtb_ltb; apply Z.ltb_ge; lia).
      injection Hnew as <- <- <-.
      split; [auto|]. cbn [url offset contentSize head with_contentSize].
      repeat (split; [reflexivity || assumption|]).
      split; [auto|]. intros Hmore. contradiction.
Qed.

(** ** The edge of the prefetch buffer *)

(** A read request whose interval ends exactly at the end of the prefetch
    buffer is not served from it: the test is strict, so the request goes
    to the network (one GET for the interval) and the reply decides the
    result, although every byte asked for is in memory. *)
Theorem prefetch_boundary_goes_to_the_network
    (q : ReadCall) (r : Reader) (w : World) (buf : list byte) :
  0 <= start q r -> buf <> [] ->
  start q r + len buf = len (head r) ->
  len (head r) <= Int64.max_int ->
  start q r < contentSize r -> url_ok (url r) = true ->
  exists r',
    call q buf r w =
      Returned
        (fetched buf
           (transport w
              (mkRequest MethodGet (url r)
                 (Some (start q r, start q r + len buf - 1)))))
        r'
        (w ++ [mkRequest MethodGet (url r)
                 (Some (start q r, start q r + len buf - 1))]).
Proof.
  intros H0 Hne Hedge Hhead Hlt Hurl.
  pose proof (len_nonneg buf) as Hl.
  destruct (range_request_exact r buf (start q r) H0 Hne) as [Hend Hreq];
    [lia|].
  assert (Hit : prefetch_hit r buf (start q r) = false)
    by (apply prefetch_hit_false; lia).
  destruct q as [|off]; cbn [start] in *.
  - rewrite (call_fetch ByRead); cbn [start]; try assumption; try lia.
    + rewrite Hreq. eauto.
    + unfold Int64.in_range, Int64.min_int, Int64.max_int in *. lia.
  - cbn [call]. unfold ReadAt. rewrite read_fetch by assumption.
    rewrite Hurl, Hreq. eauto.
Qed.

End Operations.

(** * Concrete runs *)

Import Example.

(** ** The prefetch test at a negative offset *)

(** C1 fails as stated: with a prefetch buffer of 5 bytes, a 3-byte buffer
    and offset -2 the test [len(prefetchBuffer) > offset + len(buffer)]
    holds, and both [ReadAt] at -2 and [Read] after [Seek(-2, io.SeekStart)]
    panic on [head[-2:1]] instead of returning 3 bytes. *)
Lemma prefetch_test_holds_and_read_panics :
  len (head cached_reader) > (-2) + len three /\
  ReadAt always_ok file_server three (-2) cached_reader [] =
    Panicked "slice bounds out of range"%string /\
  (Seek (-2) io_SeekStart ;; Read always_ok file_server three)
    cached_reader [] =
    Panicked "slice bounds out of range"%string.
Proof. split; [reflexivity|]. split; reflexivity. Qed.

Lemma prefetch_hit_serves_from_memory_witness :
  len (head cached_reader) > 1 + len three /\
  ReadAt always_ok file_server three 1 cached_reader [] =
    Returned (3, None, [x65; x6c; x6c]) cached_reader [].
Proof.
  split; [reflexivity|].
  refine (proj2 (prefetch_hit_serves_from_memory always_ok file_server
                   (ByReadAt 1) cached_reader [] three _ _ _)).
  - vm_compute. discriminate.
  - simpl. lia.
  - reflexivity.
Defined.

(** ** Reads past the end of a short resource *)

(** C3 on the code: against a 5-byte resource, [NewReader] with a prefetch
    of 100 sends the probe and the GET for bytes 0-99, receives 5 bytes,
    and stores a prefetch buffer of 100 bytes: longer than the resource,
    and holding 95 bytes no response returned. *)
Theorem prefetch_buffer_longer_than_resource :
  NewReader always_ok file_server the_url 100 [] =
    Some (Some overlong_reader, None, after_open) /\
  contentSize overlong_reader = 5 /\
  head overlong_reader = content ++ repeat x00 95 /\
  len (head overlong_reader) = 100 /\
  ~ len (head overlong_reader) <= contentSize overlong_reader.
Proof.
  split; [vm_compute; reflexivity|].
  split; [reflexivity|]. split; [reflexivity|]. split; [reflexivity|].
  vm_compute. intros H. apply H. reflexivity.
Qed.

(** C2 on the code: the reader that [NewReader] with a prefetch of 100
    builds for the 5-byte resource serves a read at offset 10 from its
    prefetch buffer: 3 zero bytes, no error and no request, instead of
    EOF, for [ReadAt] and for [Read] after [Seek(10, io.SeekStart)]. *)
Theorem read_past_size_served_from_prefetch :
  NewReader always_ok file_server the_url 100 [] =
    Some (Some overlong_reader, None, after_open) /\
  contentSize overlong_reader <= 10 /\
  ReadAt always_ok file_server three 10 overlong_reader after_open =
    Returned (3, None, [x00; x00; x00]) overlong_reader after_open /\
  (Seek 10 io_SeekStart ;; Read always_ok file_server three)
    overlong_reader after_open =
    Returned (3, None, [x00; x00; x00]) (with_offset overlong_reader 13)
             after_open.
Proof.
  split; [vm_compute; reflexivity|].
  split; [vm_compute; discriminate|].
  split; vm_compute; reflexivity.
Qed.

(** ** Witnesses *)

Lemma Read_advances_cursor_by_n_witness :
  exists r' w',
    Read always_ok file_server three (with_offset plain_reader 4) [] =
      Returned (3, None, [x6f; x01; x01]) r' w' /\
    offset r' = 4 + 3.
Proof.
  eexists. eexists. split; [reflexivity|].
  refine (proj1 (proj2 (Read_advances_cursor_by_n always_ok file_server
                          (with_offset plain_reader 4) [] three _ _)
                   3 None [x6f; x01; x01] _ _ eq_refl)).
  - split; vm_compute; discriminate.
  - vm_compute. discriminate.
Defined.

Lemma Seek_sets_cursor_witness :
  Seek 3 io_SeekEnd plain_reader [] =
    Returned (2, None) (with_offset plain_reader 2) [].
Proof.
  exact (proj1 (proj1 (proj2 (proj2 (Seek_sets_cursor plain_reader [] 3
                                       io_SeekEnd))) eq_refl)).
Defined.

Lemma ReadAt_leaves_reader_witness :
  observe (ReadAt always_ok file_server three 1
             (with_offset cached_reader 4) []) =
  observe (ReadAt always_ok file_server three 1 cached_reader []).
Proof.
  exact (proj2 (ReadAt_leaves_reader always_ok file_server cached_reader []
                  three 1) 4).
Defined.


Lemma read_count_is_all_or_nothing_witness :
  read always_ok file_server three 4 plain_reader [] =
    Returned (3, None, [x6f; x01; x01]) plain_reader [get_request 4 6].
Proof.
  refine (proj2 (read_count_is_all_or_nothing always_ok file_server
                   plain_reader [] three 4 _)
            (mkResponse 206 [] (BodyBytes [x6f])) [x6f]
            eq_refl _ eq_refl eq_refl eq_refl eq_refl _).
  - discriminate.
  - reflexivity.
  - simpl. lia.
Defined.



(** ** Empty buffers and negative cursors, as the specification has them *)



(** ** Witnesses of the auxiliary properties *)

Lemma read_at_or_past_size_is_EOF_witness :
  Read always_ok file_server three (with_offset plain_reader 5) [] =
    Returned (0, Some io_EOF, three) (with_offset plain_reader 5) [].
Proof.
  refine (read_at_or_past_size_is_EOF always_ok file_server ByRead
            (with_offset plain_reader 5) [] three _ _ _);
    vm_compute; discriminate.
Defined.


Lemma read_request_returns_witness :
  exists n err b r' w',
    ReadAt always_ok file_server three 2 plain_reader [] =
      Returned (n, err, b) r' w'.
Proof.
  refine (read_request_returns always_ok file_server (ByReadAt 2)
            plain_reader [] three _ _).
  - simpl. lia.
  - vm_compute. discriminate.
Defined.

Lemma read_request_panics_below_zero_witness :
  ReadAt always_ok file_server three (-5) plain_reader [] =
    Panicked "slice bounds out of range"%string.
Proof.
  refine (read_request_panics_below_zero always_ok file_server (ByReadAt (-5))
            plain_reader [] three _ _ _ _).
  - split; vm_compute; discriminate.
  - vm_compute. discriminate.
  - reflexivity.
  - reflexivity.
Defined.

(** ** The operations against the example servers *)

Lemma file_server_serves : serves file_server the_url content.
Proof.
  intros w first last H0 H1 H2. unfold file_server. simpl.
  apply Z.leb_le in H0, H1. apply Z.ltb_lt in H2.
  rewrite H0, H1, H2. simpl. eexists. split; [reflexivity|].
  split; reflexivity.
Qed.

Lemma file_server_stateless : stateless file_server.
Proof. intros w1 w2 req. reflexivity. Qed.

Lemma read_request_log_witness :
  ReadAt always_ok file_server three 2 plain_reader [] =
    Returned (3, None, [x6c; x6c; x6f]) plain_reader [get_request 2 4] /\
  req_range (range_request plain_reader three 2) = Some (2, 2 + len three - 1).
Proof.
  split; [reflexivity|].
  refine (proj2 (proj2 (proj2
            (read_request_log always_ok file_server (ByReadAt 2)
               plain_reader plain_reader [] [get_request 2 4] three
               (3, None, [x6c; x6c; x6f]) eq_refl))) _ _ _).
  - vm_compute. discriminate.
  - discriminate.
  - vm_compute. discriminate.
Defined.

Lemma read_error_leaves_buffer_witness :
  ReadAt always_ok failing_get_server three 0 plain_reader [] =
    Returned (0, Some (ErrBadStatusCode 500), three) plain_reader
             [get_request 0 2] /\
  (length three = length three /\
   (Some (ErrBadStatusCode 500) <> None ->
    0 = 0 /\ three = three /\ plain_reader = plain_reader)).
Proof.
  split; [reflexivity|].
  refine (read_error_leaves_buffer always_ok failing_get_server (ByReadAt 0)
            plain_reader plain_reader [] [get_request 0 2] three three 0
            (Some (ErrBadStatusCode 500)) _ eq_refl).
  split; vm_compute; discriminate.
Defined.

Lemma non_2xx_status_is_reported_witness :
  Read always_ok failing_get_server three plain_reader [] =
    Returned (0, Some (ErrBadStatusCode 500), three) plain_reader
             [get_request 0 2].
Proof.
  refine (non_2xx_status_is_reported always_ok failing_get_server ByRead
            plain_reader [] three (mkResponse 500 [] (BodyBytes []))
            _ _ eq_refl _ eq_refl eq_refl _).
  - split; vm_compute; discriminate.
  - vm_compute. discriminate.
  - reflexivity.
  - simpl. lia.
Defined.

Lemma transport_and_body_errors_are_passed_on_witness :
  ReadAt always_ok dead_server three 1 plain_reader [] =
    Returned (0, Some (ErrTransport "connection refused"%string), three)
             plain_reader [get_request 1 3].
Proof.
  refine (proj1 (transport_and_body_errors_are_passed_on always_ok dead_server
                   (ByReadAt 1) plain_reader [] three _ _ eq_refl _ eq_refl)
            "connection refused"%string eq_refl).
  - split; vm_compute; discriminate.
  - vm_compute. discriminate.
  - reflexivity.
Defined.

Lemma read_fetches_the_interval_witness :
  Read always_ok file_server three (with_offset plain_reader 2) [] =
    Returned (3, None, [x6c; x6c; x6f]) (with_offset plain_reader 5)
             [get_request 2 4].
Proof.
  refine (proj1 (read_fetches_the_interval always_ok file_server ByRead
                   (with_offset plain_reader 2) [] three content
                   file_server_serves eq_refl _ _ _ _ _ _)).
  - vm_compute. discriminate.
  - vm_compute. discriminate.
  - reflexivity.
  - reflexivity.
  - discriminate.
  - vm_compute. discriminate.
Defined.

Lemma prefetch_is_transparent_witness :
  ReadAt always_ok file_server two 1 cached_reader [] =
    Returned (2, None, [x65; x6c]) cached_reader [] /\
  ReadAt always_ok file_server two 1 plain_reader [] =
    Returned (2, None, [x65; x6c]) plain_reader [get_request 1 2].
Proof.
  assert (H : len (head cached_reader) <= Int64.max_int /\ 0 <= 1 /\
              1 + len two < len (head cached_reader)).
  { split; [vm_compute; discriminate|].
    split; [vm_compute; discriminate|reflexivity]. }
  destruct H as (Hmax & H0 & Hcover).
  destruct (prefetch_is_transparent always_ok file_server cached_reader []
              two content 1 eq_refl Hmax H0 Hcover) as [Hmem Hnet].
  split; [exact Hmem|].
  refine (Hnet file_server_serves eq_refl _ _).
  - reflexivity.
  - discriminate.
Defined.


Lemma consecutive_Reads_are_contiguous_witness :
  exists w2 w1,
    ('(_, _, b1) <- Read always_ok file_server two ;;
     '(_, _, b2) <- Read always_ok file_server three ;;
     ret (b1 ++ b2)) plain_reader [] =
      Returned content (with_offset plain_reader 5) w2 /\
    Read always_ok file_server (two ++ three) plain_reader [] =
      Returned (5, None, content) (with_offset plain_reader 5) w1.
Proof.
  refine (consecutive_Reads_are_contiguous always_ok file_server plain_reader
            [] two three content file_server_serves eq_refl _ _ _ _ _ _ _).
  - vm_compute. discriminate.
  - vm_compute. discriminate.
  - discriminate.
  - discriminate.
  - vm_compute. discriminate.
  - vm_compute. discriminate.
  - vm_compute. discriminate.
Defined.

Lemma ReadAt_is_idempotent_witness :
  exists w'',
    ReadAt always_ok file_server [x6c; x6c; x6f] 2 plain_reader
           [get_request 2 4] =
      Returned (3, None, [x6c; x6c; x6f]) plain_reader w''.
Proof.
  exact (ReadAt_is_idempotent always_ok file_server plain_reader plain_reader
           [] [get_request 2 4] three [x6c; x6c; x6f] 2 3 None
           file_server_stateless eq_refl).
Defined.

Lemma Seek_current_there_and_back_witness :
  (Seek Int64.max_int io_SeekCurrent ;; Seek (- Int64.max_int) io_SeekCurrent)
    (with_offset plain_reader 4) [] =
    Returned (4, None) (with_offset plain_reader 4) [].
Proof.
  refine (Seek_current_there_and_back (with_offset plain_reader 4) []
            Int64.max_int _).
  split; vm_compute; discriminate.
Defined.


Lemma Seek_from_the_end_reads_the_tail_witness :
  (Seek 2 io_SeekEnd ;; Read always_ok file_server two) plain_reader [] =
    Returned (2, None, [x6c; x6f]) (with_offset plain_reader 5)
             [get_request 3 4].
Proof.
  refine (Seek_from_the_end_reads_the_tail always_ok file_server plain_reader
            [] two content file_server_serves eq_refl eq_refl _ _ _ _).
  - vm_compute. discriminate.
  - discriminate.
  - vm_compute. discriminate.
  - vm_compute. discriminate.
Defined.

Lemma NewReader_without_prefetch_witness :
  NewReader always_ok missing_server the_url 0 [] =
    Some (Some (mkReader the_url 0 19 []), None, [head_request]).
Proof.
  refine (NewReader_without_prefetch always_ok missing_server the_url 0 19 []
            (mkResponse 404 [("Content-Length"%string, "19"%string)]
                        (BodyBytes []))
            _ eq_refl eq_refl eq_refl).
  vm_compute. discriminate.
Defined.

Lemma NewReader_fails_with_the_probe_witness :
  NewReader always_ok bare_server the_url 3 [] =
    Some (None, Some (ErrParseInt EmptyString), [head_request]).
Proof.
  refine (proj2 (proj2 (proj2 (NewReader_fails_with_the_probe always_ok
                                 bare_server the_url 3 []) eq_refl))
            (mkResponse 200 [] (BodyBytes content)) eq_refl _).
  intros v H. exact H.
Defined.

Lemma NewReader_result_shape_witness :
  NewReader always_ok file_server the_url 3 [] =
    Some (Some (mkReader the_url 0 5 [x68; x65; x6c]), None,
          [head_request; get_request 0 2]) /\
  Int64.in_range (contentSize (mkReader the_url 0 5 [x68; x65; x6c])).
Proof.
  split; [reflexivity|].
  refine (proj1 (proj2 (proj2 (proj2 (proj2
            (NewReader_result_shape always_ok file_server the_url 3 []
               [head_request; get_request 0 2]
               (Some (mkReader the_url 0 5 [x68; x65; x6c])) None
               _ eq_refl)))))).
  vm_compute. discriminate.
Defined.

Lemma prefetch_boundary_goes_to_the_network_witness :
  exists r',
    ReadAt always_ok file_server three 2 cached_reader [] =
      Returned (3, None, [x6c; x6c; x6f]) r' [get_request 2 4].
Proof.
  refine (prefetch_boundary_goes_to_the_network always_ok file_server
            (ByReadAt 2) cached_reader [] three _ _ _ _ _ eq_refl).
  - vm_compute. discriminate.
  - discriminate.
  - reflexivity.
  - vm_compute. discriminate.
  - reflexivity.
Defined.
